(** * Upload-Neocities: a shallow embedding of [upload_neocities.py]

    The incremental sync engine of the uploader: the content hasher
    ([sha1_file]), the batcher ([chunked]), the resilient invoker
    ([retry_on_rate_limit]) and the three stages of [main] that decide what
    is sent (remote index, diff loop, batch size).

    Part 1 holds the model, one module per source function.  Part 2 holds
    the properties. *)

From Stdlib Require Import ZArith Lia.
From Stdlib.Strings Require Import Byte Ascii String.
From Equations Require Import Equations.
From stdpp Require Import gmap strings list fin_maps.

Local Open Scope Z_scope.

(* ===================================================================== *)
(** * Part 1: the model                                                   *)
(* ===================================================================== *)

(** ** Python values, exceptions and results *)

Module Py.

(** Exceptions the modelled code can raise or let through.  [HTTPError]
    carries [e.response.status_code] ([None] when the exception has no
    response attached); [OtherException] stands for every exception class
    that is not an instance of [requests.HTTPError] (connection failures,
    timeouts, ...). *)
Inductive exn :=
| ValueError (msg : string)
| KeyError (key : string)
| TypeError (msg : string)
| AttributeError (msg : string)
| OSError (path : string)
| HTTPError (response : option Z)
| OtherException (name : string).

(** A computation either returns or raises. *)
Inductive res (A : Type) :=
| Ok (a : A)
| Raise (e : exn).
Arguments Ok {A} a.
Arguments Raise {A} e.

Definition bind {A B} (m : res A) (k : A → res B) : res B :=
  match m with
  | Ok a => k a
  | Raise e => Raise e
  end.

Definition raises {A} (m : res A) : Prop := ∃ e, m = Raise e.

#[global] Instance res_ret : MRet res := @Ok.
#[global] Instance res_bind : MBind res := λ A B k m, bind m k.

(** The scalar values of a decoded JSON document, and of the defaults the
    code compares them with.  (JSON floats are left out: the listing
    reports sizes as integers.) *)
Inductive value :=
| VNone
| VBool (b : bool)
| VInt (z : Z)
| VStr (s : string).

#[global] Instance value_eq_dec : EqDecision value.
Proof. solve_decision. Defined.

(** [bool(v)] *)
Definition truthy (v : value) : bool :=
  match v with
  | VNone => false
  | VBool b => b
  | VInt z => negb (z =? 0)
  | VStr s => negb (String.eqb s "")
  end.

(** [z != v] for an [int] on the left: [bool] is a subclass of [int], so
    [True == 1] and [False == 0]; every other type is unequal to an int. *)
Definition int_ne (z : Z) (v : value) : bool :=
  match v with
  | VInt z' => negb (z =? z')
  | VBool b => negb (z =? (if b then 1 else 0))
  | _ => true
  end.

(** [s != v] for a [str] on the left. *)
Definition str_ne (s : string) (v : value) : bool :=
  match v with
  | VStr s' => negb (String.eqb s s')
  | _ => true
  end.

End Py.

(** ** The batcher: [chunked] *)

Module Batcher.
Import Py.

(** Number of items of [range(start, stop, step)] for a non-zero step. *)
Definition range_len (start stop step : Z) : Z :=
  if 0 <? step then
    if start <? stop then (stop - start - 1) / step + 1 else 0
  else
    if stop <? start then (start - stop - 1) / (- step) + 1 else 0.

(** [range(start, stop, step)], item [k] being [start + k * step]. *)
Definition py_range (start stop step : Z) : res (list Z) :=
  if step =? 0 then Raise (ValueError "range() arg 3 must not be zero")
  else Ok (map (fun k : nat => start + Z.of_nat k * step)
               (seq 0 (Z.to_nat (range_len start stop step)))).

(** A slice bound: negative bounds count from the end, and every bound is
    clamped to [0, len]. *)
Definition clamp (len i : Z) : Z :=
  if i <? 0 then Z.max 0 (i + len) else Z.min i len.

(** [l[i:j]] *)
Definition slice {A} (l : list A) (i j : Z) : list A :=
  let len := Z.of_nat (length l) in
  let lo := clamp len i in
  let hi := clamp len j in
  take (Z.to_nat (hi - lo)) (drop (Z.to_nat lo) l).

(** [chunked(seq, n)]: the batches the generator yields, in order, or the
    exception its first [next()] raises. *)
Definition chunked {A} (seq : list A) (n : Z) : res (list (list A)) :=
  idx ← py_range 0 (Z.of_nat (length seq)) n;
  Ok (map (fun i => slice seq i (i + n)) idx).

(** [int(s)] for a [str], base 10: surrounding whitespace is stripped, one
    sign is allowed, and single underscores may separate digits. *)
Definition is_space (c : ascii) : bool :=
  let n := nat_of_ascii c in
  ((9 <=? n) && (n <=? 13) || (n =? 32) || ((28 <=? n) && (n <=? 31)))%nat.

Definition digit_of (c : ascii) : option Z :=
  let n := nat_of_ascii c in
  if ((48 <=? n) && (n <=? 57))%nat then Some (Z.of_nat n - 48) else None.

Fixpoint lstrip (s : list ascii) : list ascii :=
  match s with
  | c :: s' => if is_space c then lstrip s' else s
  | [] => []
  end.

Definition strip (s : list ascii) : list ascii :=
  rev (lstrip (rev (lstrip s))).

(** Digits with single underscores between them; [prev_digit] tells whether
    the previous character was a digit, [acc] is the value read so far. *)
Fixpoint digits (s : list ascii) (prev_digit : bool) (acc : Z) : option Z :=
  match s with
  | [] => if prev_digit then Some acc else None
  | c :: s' =>
      match digit_of c with
      | Some d => digits s' true (10 * acc + d)
      | None =>
          if (Ascii.eqb c "_" && prev_digit)%bool then digits s' false acc
          else None
      end
  end.

Definition py_int (s : string) : res Z :=
  let body := strip (list_ascii_of_string s) in
  let parsed :=
    match body with
    | c :: rest =>
        if Ascii.eqb c "-" then Z.opp <$> digits rest false 0
        else if Ascii.eqb c "+" then digits rest false 0
        else digits body false 0
    | [] => None
    end in
  match parsed with
  | Some z => Ok z
  | None => Raise (ValueError "invalid literal for int() with base 10")
  end.

(** Line 84 of [main]: [batch_sz = int(c.get("batch_size", "100"))], where
    [cfg] is the value stored under the key, if any. *)
Definition batch_size_of (cfg : option string) : res Z :=
  py_int (default "100"%string cfg).

(** Lines 84 and 132 together: the batches [main] iterates over. *)
Definition batches_of {A} (cfg : option string) (to_send : list A)
  : res (list (list A)) :=
  batch_sz ← batch_size_of cfg;
  chunked to_send batch_sz.

End Batcher.

(** ** The resilient invoker: [retry_on_rate_limit] *)

Module Invoker.
Import Py.

(** What the invoker does to the outside, in order: it calls the wrapped
    operation, prints a warning, sleeps. *)
Inductive event :=
| Call
| Print (status_code delay : Z)
| Sleep (delay : Z).

(** How a run of the loop stands: it returned, it raised, or it is still in
    the [while True] loop (with the current [delay]) when the observation
    ends. *)
Inductive outcome (V : Type) :=
| Returned (v : V)
| Raised (e : exn)
| Running (delay : Z).
Arguments Returned {V} v.
Arguments Raised {V} e.
Arguments Running {V} delay.

(** The wrapped operation [fn]: from the state of the world (the remote
    service, the network) it returns or raises and leaves a new state. *)
Definition op (W V : Type) : Type := W → res V * W.

(** [status_code in (429, 500, 502, 503, 504)] *)
Definition transient (status_code : Z) : bool :=
  bool_decide (status_code ∈ [429; 500; 502; 503; 504]).

(** [delay = min(delay * 2, 600)] *)
Definition next_delay (delay : Z) : Z := Z.min (delay * 2) 600.

(** The [while True] loop observed for [fuel] iterations, entered with the
    local variable [delay]. *)
Fixpoint attempts {W V} (fuel : nat) (fn : op W V) (delay : Z) (w : W)
  : outcome V * W * list event :=
  match fuel with
  | O => (Running delay, w, [])
  | S fuel' =>
      let '(r, w1) := fn w in
      match r with
      | Ok v => (Returned v, w1, [Call])
      | Raise (HTTPError (Some status_code)) =>
          if transient status_code then
            let '(o, w2, t) := attempts fuel' fn (next_delay delay) w1 in
            (o, w2, Call :: Print status_code delay :: Sleep delay :: t)
          else (Raised (HTTPError (Some status_code)), w1, [Call])
      | Raise (HTTPError None) =>
          (Raised (AttributeError "'NoneType' object has no attribute 'status_code'"),
           w1, [Call])
      | Raise e => (Raised e, w1, [Call])
      end
  end.

(** [retry_on_rate_limit(fn)]: [delay = 60], then the loop. *)
Definition retry_on_rate_limit {W V} (fuel : nat) (fn : op W V) (w : W)
  : outcome V * W * list event :=
  attempts fuel fn 60 w.

(** Lines 132-133 of [main]: one wrapped call per batch, each observed for
    at most [fuel] iterations; an exception ends the run. *)
Fixpoint upload_batches {W V X} (fuel : nat) (upload : list X → op W V)
    (chunks : list (list X)) (w : W) : outcome unit * W * list event :=
  match chunks with
  | [] => (Returned (), w, [])
  | chunk :: rest =>
      let '(o, w1, t) := retry_on_rate_limit fuel (upload chunk) w in
      match o with
      | Returned _ =>
          let '(o', w2, t') := upload_batches fuel upload rest w1 in
          (o', w2, t ++ t')
      | Raised e => (Raised e, w1, t)
      | Running d => (Running d, w1, t)
      end
  end.

(** *** Vocabulary of the properties *)

(** The delays slept and the number of calls made in a trace. *)
Definition sleeps (t : list event) : list Z :=
  omap (λ e, match e with Sleep d => Some d | _ => None end) t.

Definition calls (t : list event) : nat :=
  length (omap (λ e, match e with Call => Some () | _ => None end) t).

(** The state of the world after [n] calls of [fn]. *)
Fixpoint after {W V} (fn : op W V) (n : nat) (w : W) : W :=
  match n with
  | O => w
  | S n' => after fn n' (fn w).2
  end.

(** [fn] fails on [w] with a transient HTTP status. *)
Definition transient_failure {W V} (fn : op W V) (w : W) : Prop :=
  ∃ status_code,
    (fn w).1 = Raise (HTTPError (Some status_code))
    ∧ transient status_code = true.

(** [fn] fails with a transient status [n] times in a row from [w]. *)
Definition transient_streak {W V} (fn : op W V) (n : nat) (w : W) : Prop :=
  ∀ k, (k < n)%nat → transient_failure fn (after fn k w).

(** The schedule of the specification: 60 doubled [k] times, capped at
    600. *)
Definition spec_delay (k : nat) : Z := Z.min (60 * 2 ^ Z.of_nat k) 600.

(** The trace of failures with the status codes [codes] in a row, the loop
    being entered with [delay]: attempt [k] is a call, a warning and a sleep
    of [delay] updated [k] times. *)
Definition streak_trace (delay : Z) (codes : list Z) : list event :=
  concat (imap (λ k status_code,
                  [Call;
                   Print status_code (Nat.iter k next_delay delay);
                   Sleep (Nat.iter k next_delay delay)]) codes).

(** A scripted operation, for examples: the world is the list of the
    results still to come. *)
Definition scripted {V} : op (list (res V)) V :=
  λ w, match w with
       | r :: w' => (r, w')
       | [] => (Raise (OtherException "script exhausted"), [])
       end.

(** An upload whose results are scripted, whatever the batch. *)
Definition scripted_upload {V X} : list X → op (list (res V)) V :=
  λ _, scripted.

End Invoker.

(** ** SHA-1, as [hashlib] provides it *)

(** The hash object behind [hashlib.sha1()] and [hashlib.file_digest]: the
    chaining value, the bytes fed that do not fill a block yet, and the
    number of bytes fed so far. *)

Module Sha1.

(** 32-bit words are integers in [0, 2^32). *)
Definition wrap (x : Z) : Z := Z.land x 4294967295.

(** Addition modulo 2^32. *)
Definition add32 (x y : Z) : Z := wrap (x + y).

(** Rotation to the left by [n] bits. *)
Definition rotl (n x : Z) : Z :=
  wrap (Z.lor (Z.shiftl x n) (Z.shiftr x (32 - n))).

(** Bitwise complement of a word. *)
Definition not32 (x : Z) : Z := Z.lxor x 4294967295.

(** A byte as a number, and the low byte of a number. *)
Definition byte_val (b : byte) : Z := Z.of_N (Byte.to_N b).

Definition byte_of (z : Z) : byte :=
  default x00 (Byte.of_N (Z.to_N (Z.land z 255))).

(** Big-endian words of a block. *)
Fixpoint words_of (block : list byte) : list Z :=
  match block with
  | b0 :: b1 :: b2 :: b3 :: rest =>
      Z.lor (Z.shiftl (byte_val b0) 24)
        (Z.lor (Z.shiftl (byte_val b1) 16)
           (Z.lor (Z.shiftl (byte_val b2) 8) (byte_val b3)))
      :: words_of rest
  | _ => []
  end.

(** The four bytes of a word, most significant first. *)
Definition bytes_of_word (w : Z) : list byte :=
  [byte_of (Z.shiftr w 24); byte_of (Z.shiftr w 16);
   byte_of (Z.shiftr w 8); byte_of w].

(** The chaining value: five words. *)
Record chain := { h0 : Z; h1 : Z; h2 : Z; h3 : Z; h4 : Z }.

Definition initial : chain :=
  {| h0 := 0x67452301; h1 := 0xEFCDAB89; h2 := 0x98BADCFE;
     h3 := 0x10325476; h4 := 0xC3D2E1F0 |}.

(** The round function and the round constant of round [t]. *)
Definition f (t : nat) (b c d : Z) : Z :=
  if (t <? 20)%nat then Z.lor (Z.land b c) (Z.land (not32 b) d)
  else if (t <? 40)%nat then Z.lxor b (Z.lxor c d)
  else if (t <? 60)%nat then
    Z.lor (Z.land b c) (Z.lor (Z.land b d) (Z.land c d))
  else Z.lxor b (Z.lxor c d).

Definition K (t : nat) : Z :=
  if (t <? 20)%nat then 0x5A827999
  else if (t <? 40)%nat then 0x6ED9EBA1
  else if (t <? 60)%nat then 0x8F1BBCDC
  else 0xCA62C1D6.

(** [n] rounds from round [t]; [win] holds the sixteen schedule words
    W[t] .. W[t+15]. *)
Fixpoint rounds (n t : nat) (s : chain) (win : list Z) : chain :=
  match n with
  | O => s
  | S n' =>
      let w i := nth i win 0 in
      let temp :=
        add32 (add32 (add32 (add32 (rotl 5 (h0 s)) (f t (h1 s) (h2 s) (h3 s)))
                        (h4 s)) (K t)) (w 0%nat) in
      let next :=
        rotl 1 (Z.lxor (w 13%nat) (Z.lxor (w 8%nat) (Z.lxor (w 2%nat) (w 0%nat)))) in
      rounds n' (S t)
        {| h0 := temp; h1 := h0 s; h2 := rotl 30 (h1 s); h3 := h2 s; h4 := h3 s |}
        (tail win ++ [next])
  end.

(** The compression of one 64-byte block into the chaining value. *)
Definition compress (h : chain) (block : list byte) : chain :=
  let s := rounds 80 0 h (words_of block) in
  {| h0 := add32 (h0 h) (h0 s); h1 := add32 (h1 h) (h1 s);
     h2 := add32 (h2 h) (h2 s); h3 := add32 (h3 h) (h3 s);
     h4 := add32 (h4 h) (h4 s) |}.

(** Consume the whole 64-byte blocks of [data]; what is left is shorter
    than a block. *)
Equations absorb (h : chain) (data : list byte) : chain * list byte
  by wf (length data) lt :=
  absorb h data with decide (64 ≤ length data)%nat => {
    | left _ => absorb (compress h (take 64 data)) (drop 64 data)
    | right _ => (h, data)
  }.
Next Obligation. intros _ data Hlen _. rewrite length_drop. lia. Qed.

(** The hash object. *)
Record hasher := { chaining : chain; buffered : list byte; total : Z }.

(** [hashlib.sha1()] *)
Definition new : hasher :=
  {| chaining := initial; buffered := []; total := 0 |}.

(** [h.update(data)] *)
Definition update (h : hasher) (data : list byte) : hasher :=
  let '(c, rest) := absorb (chaining h) (buffered h ++ data) in
  {| chaining := c; buffered := rest;
     total := total h + Z.of_nat (length data) |}.

(** The eight bytes of a length, most significant first. *)
Definition be64 (x : Z) : list byte :=
  map (λ i : nat, byte_of (Z.shiftr x (8 * (7 - Z.of_nat i)))) (seq 0 8).

(** The padding of a message of [total] bytes: the bit 1, zeros up to 56
    modulo 64, the length in bits. *)
Definition padding (total : Z) : list byte :=
  x80 :: replicate (Z.to_nat ((55 - total) mod 64)) x00 ++ be64 (8 * total).

(** [h.digest()]: the twenty bytes of the chaining value after the
    padding. *)
Definition digest (h : hasher) : list byte :=
  let c := (absorb (chaining h) (buffered h ++ padding (total h))).1 in
  bytes_of_word (h0 c) ++ bytes_of_word (h1 c) ++ bytes_of_word (h2 c)
  ++ bytes_of_word (h3 c) ++ bytes_of_word (h4 c).

(** Lower-case hexadecimal, two characters per byte. *)
Definition hex_digit (z : Z) : ascii :=
  ascii_of_nat (Z.to_nat (if z <? 10 then 48 + z else 87 + z)).

Fixpoint hex (bs : list byte) : string :=
  match bs with
  | [] => EmptyString
  | b :: bs' =>
      String (hex_digit (Z.shiftr (byte_val b) 4))
        (String (hex_digit (Z.land (byte_val b) 15)) (hex bs'))
  end.

(** [h.hexdigest()] *)
Definition hexdigest (h : hasher) : string := hex (digest h).

End Sha1.

(** ** The content hasher: [sha1_file] *)

Module Hasher.
Import Py Sha1.

#[global] Instance byte_eq_dec : EqDecision byte := Byte.byte_eq_dec.

(** [p.open("rb")]: the file system is the map from the path of every file
    to its content; a path that is not in the map does not exist. *)
Definition open (fs : gmap string (list byte)) (p : string)
  : res (list byte) :=
  match fs !! p with
  | Some content => Ok content
  | None => Raise (OSError p)
  end.

(** [fh.read(size)] on a binary file whose unread bytes are [fh]: the bytes
    returned and the bytes left.  A size of -1 reads to the end; a size
    below -1 is refused. *)
Definition read (size : Z) (fh : list byte) : res (list byte * list byte) :=
  if size <? -1 then
    Raise (ValueError "read length must be non-negative or -1")
  else if size <? 0 then Ok (fh, [])
  else Ok (take (Z.to_nat size) fh, drop (Z.to_nat size) fh).

(** A value, with the fact that the expression evaluates to it. *)
Definition inspect {A} (a : A) : {b : A | a = b} := exist _ a eq_refl.

(** [for chunk in iter(lambda: fh.read(buf), b""): h.update(chunk)] *)
Equations manual_loop (buf : Z) (fh : list byte) (h : hasher) : res hasher
  by wf (length fh) lt :=
  manual_loop buf fh h with inspect (read buf fh) => {
    | exist _ (Raise e) _ => Raise e
    | exist _ (Ok (chunk, rest)) Hr with decide (chunk = []) => {
        | left _ => Ok h
        | right Hne => manual_loop buf rest (update h chunk)
      }
  }.
Next Obligation.
  intros buf fh chunk Hne rest Hr _ _. cbv beta in Hr. revert Hr. unfold read.
  destruct (buf <? -1); [done|].
  destruct (buf <? 0); intros [= <- <-].
  - destruct fh; [done|]. cbn. lia.
  - rewrite length_drop.
    destruct fh as [|b fh]; [by rewrite take_nil in Hne|].
    destruct (Z.to_nat buf); [done|]. cbn. lia.
Qed.

(** [fileobj.readinto(buf)] for a buffer of [cap] bytes: the number of
    bytes read, the bytes now at the start of the buffer, the bytes left. *)
Definition readinto (cap : Z) (fh : list byte) : Z * list byte * list byte :=
  let data := take (Z.to_nat cap) fh in
  (Z.of_nat (length data), data, drop (Z.to_nat cap) fh).

(** The loop of the standard library's [hashlib.file_digest]:
    [while True: size = fileobj.readinto(buf); if size == 0: break;
     digestobj.update(view[:size])], [buf] being [bufsize] bytes long. *)
Equations file_digest_loop (bufsize : Z) (fh : list byte) (h : hasher)
  : hasher by wf (length fh) lt :=
  file_digest_loop bufsize fh h
    with decide ((readinto bufsize fh).1.1 = 0) => {
    | left _ => h
    | right _ =>
        file_digest_loop bufsize (readinto bufsize fh).2
          (update h (take (Z.to_nat (readinto bufsize fh).1.1)
                          (readinto bufsize fh).1.2))
  }.
Next Obligation.
  intros bufsize fh Hne _ _. revert Hne. unfold readinto. cbn.
  rewrite length_take, length_drop. lia.
Qed.

(** [hashlib.file_digest(fh, "sha1")], with its default [_bufsize]. *)
Definition file_digest (fh : list byte) : hasher :=
  file_digest_loop (2 ^ 18) fh new.

(** The default of the parameter [buf]. *)
Definition default_buf : Z := 128 * 1024.

(** [sha1_file(p, buf)]; [has_file_digest] is
    [hasattr(hashlib, "file_digest")]. *)
Definition sha1_file (has_file_digest : bool) (fs : gmap string (list byte))
    (p : string) (buf : Z) : res string :=
  if has_file_digest then
    fh ← open fs p;
    Ok (hexdigest (file_digest fh))
  else
    fh ← open fs p;
    h ← manual_loop buf fh new;
    Ok (hexdigest h).

(** *** Vocabulary of the properties *)

(** The SHA-1 of a byte string fed at once:
    [hashlib.sha1(data).hexdigest()]. *)
Definition sha1_hex (data : list byte) : string := hexdigest (update new data).

(** What a hasher has been fed once a loop has read [fh] to its end. *)
Definition fed (h : hasher) (fh : list byte) : hasher :=
  if decide (fh = []) then h else update h fh.


End Hasher.

(** ** The remote index builder: lines 102-107 of [main] *)

Module RemoteIndex.
Import Py.

(** What the decoded listing holds under a key: a scalar, or a list of
    entries, each entry a dict of scalars. *)
Inductive field :=
| Scalar (v : value)
| Entries (files : list (gmap string value)).

(** What [sys.exit] is given after ["API error: "]:
    [raw.get('message', raw)]. *)
Inductive detail :=
| Message (m : field)
| Whole (raw : gmap string field).

(** How the stage ends: with the index, with [sys.exit] on an API error, or
    with an exception of the comprehension. *)
Inductive built :=
| Index (remote_index : gmap string (value * value))
| ApiError (d : detail)
| Failed (e : exn).

(** [f[key]] *)
Definition getitem (f : gmap string value) (key : string) : res value :=
  match f !! key with
  | Some v => Ok v
  | None => Raise (KeyError key)
  end.

(** [raw.get("result") != "success"] *)
Definition result_ne_success (raw : gmap string field) : bool :=
  match raw !! "result"%string with
  | Some (Scalar v) => str_ne "success" v
  | Some (Entries _) => true
  | None => true
  end.

(** ["files" not in raw] *)
Definition files_not_in (raw : gmap string field) : bool :=
  match raw !! "files"%string with
  | Some _ => false
  | None => true
  end.

(** The dict comprehension, entry by entry: the filter first, then the key,
    then the value; a later entry replaces an earlier one under the same
    path.  The index is only ever read with a [str] key, which no key of
    another type equals: the model keeps the [str] keys. *)
Fixpoint comprehension (files : list (gmap string value))
    (acc : gmap string (value * value)) : res (gmap string (value * value)) :=
  match files with
  | [] => Ok acc
  | f :: rest =>
      is_directory ← getitem f "is_directory";
      if truthy is_directory then comprehension rest acc
      else
        path ← getitem f "path";
        size ← getitem f "size";
        sha1_hash ← getitem f "sha1_hash";
        comprehension rest
          (match path with
           | VStr key => <[key := (size, sha1_hash)]> acc
           | _ => acc
           end)
  end.

Definition remote_index (raw : gmap string field) : built :=
  if result_ne_success raw || files_not_in raw then
    ApiError (match raw !! "message"%string with
              | Some m => Message m
              | None => Whole raw
              end)
  else
    match raw !! "files"%string with
    | Some (Entries files) =>
        match comprehension files ∅ with
        | Ok idx => Index idx
        | Raise e => Failed e
        end
    | Some (Scalar (VStr "")) => Index ∅
    | Some (Scalar (VStr _)) =>
        Failed (TypeError "string indices must be integers")
    | Some (Scalar _) => Failed (TypeError "object is not iterable")
    | None => Failed (KeyError "files")
    end.

(** *** Vocabulary of the properties *)

(** An entry of the listing that is not marked as a directory. *)
Definition is_file (f : gmap string value) : Prop :=
  ∃ d, f !! "is_directory"%string = Some d ∧ truthy d = false.

(** An entry that is not a file entry with path [key]. *)
Definition misses (key : string) (g : gmap string value) : Prop :=
  ¬ (is_file g ∧ g !! "path"%string = Some (VStr key)).

(** An entry the comprehension can read: it tells whether it is a
    directory, and when it is not it has a path, a size and a hash. *)
Definition well_formed (f : gmap string value) : Prop :=
  ∃ d, f !! "is_directory"%string = Some d
       ∧ (truthy d = false →
          is_Some (f !! "path"%string) ∧ is_Some (f !! "size"%string)
          ∧ is_Some (f !! "sha1_hash"%string)).

(** The entry of a file, and of a directory, as the service lists them. *)
Definition file_entry (path : string) (size : Z) (sha1_hash : string)
  : gmap string value :=
  {[ "path"%string := VStr path; "is_directory"%string := VBool false;
     "size"%string := VInt size; "sha1_hash"%string := VStr sha1_hash ]}.

Definition directory_entry (path : string) : gmap string value :=
  {[ "path"%string := VStr path; "is_directory"%string := VBool true ]}.

End RemoteIndex.

(** ** The diff engine: lines 114-121 of [main] *)

Module Diff.
Import Py Hasher.

(** A path of the scan, by what [pathlib] reports for it: [p.as_posix()]
    and [p.relative_to(root).as_posix()]. *)
Record local_path := {
  as_posix : string;
  relative_posix : string
}.

(** [p.stat().st_size] *)
Definition st_size (fs : gmap string (list byte)) (p : local_path) : res Z :=
  match fs !! as_posix p with
  | Some content => Ok (Z.of_nat (length content))
  | None => Raise (OSError (as_posix p))
  end.

(** [size != r_size or sha1_file(p) != r_sha]: the decision, and the paths
    the hasher was called on to reach it.  [or] evaluates its right operand
    only when the left one is false. *)
Definition changed (has_file_digest : bool) (fs : gmap string (list byte))
    (p : local_path) (size : Z) (r_size r_sha : value)
  : res (bool * list string) :=
  if int_ne size r_size then Ok (true, [])
  else
    sha ← sha1_file has_file_digest fs (as_posix p) default_buf;
    Ok (str_ne sha r_sha, [as_posix p]).

(** The loop over [local]: [to_send], and the paths hashed, in order. *)
Fixpoint diff (has_file_digest : bool) (fs : gmap string (list byte))
    (remote_index : gmap string (value * value)) (local : list local_path)
  : res (list (string * string) * list string) :=
  match local with
  | [] => Ok ([], [])
  | p :: rest =>
      let rel := relative_posix p in
      let abs := as_posix p in
      size ← st_size fs p;
      let '(r_size, r_sha) := default (VNone, VNone) (remote_index !! rel) in
      '(send, hashed) ← changed has_file_digest fs p size r_size r_sha;
      '(to_send, log) ← diff has_file_digest fs remote_index rest;
      Ok ((if send : bool then [(abs, rel)] else []) ++ to_send, hashed ++ log)
  end.

(** *** Vocabulary of the properties *)

(** The rule of the specification for one local file: no remote entry under
    its relative path, or a remote size that differs, or a remote hash that
    differs. *)
Definition outdated (fs : gmap string (list byte))
    (remote_index : gmap string (value * value)) (p : local_path) : Prop :=
  remote_index !! relative_posix p = None
  ∨ ∃ content r_size r_sha,
      fs !! as_posix p = Some content
      ∧ remote_index !! relative_posix p = Some (r_size, r_sha)
      ∧ (int_ne (Z.of_nat (length content)) r_size = true
         ∨ str_ne (sha1_hex content) r_sha = true).

(** The same rule as a test. *)
Definition outdatedb (fs : gmap string (list byte))
    (remote_index : gmap string (value * value)) (p : local_path) : bool :=
  match remote_index !! relative_posix p, fs !! as_posix p with
  | None, _ => true
  | Some (r_size, r_sha), Some content =>
      int_ne (Z.of_nat (length content)) r_size
      || str_ne (sha1_hex content) r_sha
  | Some _, None => false
  end.

(** The local files whose size is equal to the size of their remote
    entry. *)
Definition same_size (fs : gmap string (list byte))
    (remote_index : gmap string (value * value)) (p : local_path) : bool :=
  match remote_index !! relative_posix p, fs !! as_posix p with
  | Some (r_size, _), Some content =>
      negb (int_ne (Z.of_nat (length content)) r_size)
  | _, _ => false
  end.

(** Every scanned path is a readable file. *)
Definition readable (fs : gmap string (list byte)) (local : list local_path)
  : Prop :=
  Forall (λ p, is_Some (fs !! as_posix p)) local.

Definition pair_of (p : local_path) : string * string :=
  (as_posix p, relative_posix p).

End Diff.

(** ** The local tree scanner: lines 85 and 111-112 of [main] *)

Module Scanner.
Import Py Diff.

(** [str.lower()], on ASCII. *)
Definition lower_char (c : ascii) : ascii :=
  let n := nat_of_ascii c in
  if ((65 <=? n) && (n <=? 90))%nat then ascii_of_nat (n + 32) else c.

Definition lower (s : list ascii) : list ascii := map lower_char s.

(** [s.lstrip(".")] *)
Fixpoint lstrip_dots (s : list ascii) : list ascii :=
  match s with
  | c :: s' => if Ascii.eqb c "." then lstrip_dots s' else s
  | [] => []
  end.

(** [s.split(sep)] for a separator of one character: the pieces between
    the separators, of which there is always at least one. *)
Fixpoint split (sep : ascii) (s : list ascii) : list (list ascii) :=
  match s with
  | [] => [[]]
  | c :: s' =>
      if Ascii.eqb c sep then [] :: split sep s'
      else
        match split sep s' with
        | piece :: pieces => (c :: piece) :: pieces
        | [] => [[c]]
        end
  end.

(** [e.strip().lower().lstrip(".")] *)
Definition normalise (e : list ascii) : list ascii :=
  lstrip_dots (lower (Batcher.strip e)).

(** Line 85: [exts], from the value of [include_files]. *)
Definition parse_exts (include_files : string) : list string :=
  map (λ e, string_of_list_ascii (normalise e))
      (split "," (list_ascii_of_string include_files)).

(** [c["include_files"]], then line 85. *)
Definition exts_of (cfg : option string) : res (list string) :=
  match cfg with
  | Some include_files => Ok (parse_exts include_files)
  | None => Raise (KeyError "include_files")
  end.

(** [s.rfind(c)]: the index of the last [c], if there is one. *)
Fixpoint rfind (c : ascii) (s : list ascii) : option nat :=
  match s with
  | [] => None
  | x :: s' =>
      match rfind c s' with
      | Some i => Some (S i)
      | None => if Ascii.eqb x c then Some 0%nat else None
      end
  end.

(** [p.name]: the last component of the path. *)
Definition name_of (posix : list ascii) : list ascii :=
  List.last (split "/" posix) [].

(** [p.suffix], as [pathlib] defines it up to Python 3.12:
    [i = name.rfind('.')], and [name[i:]] when [0 < i < len(name) - 1],
    else the empty string. *)
Definition suffix (posix : list ascii) : list ascii :=
  let name := name_of posix in
  match rfind "." name with
  | Some i =>
      if ((0 <? i) && (i <? length name - 1))%nat then drop i name else []
  | None => []
  end.

(** [p.suffix.lstrip(".").lower()] *)
Definition extension_key (posix : string) : string :=
  string_of_list_ascii (lower (lstrip_dots (suffix (list_ascii_of_string posix)))).

(** An item of [root.rglob("*")]: the path, and what [p.is_file()]
    answers. *)
Record candidate := {
  cand_path : local_path;
  is_file : bool
}.

(** [p.is_file() and p.suffix.lstrip(".").lower() in exts] *)
Definition selected (exts : list string) (c : candidate) : bool :=
  is_file c && bool_decide (extension_key (as_posix (cand_path c)) ∈ exts).

(** Lines 111-112: [local]. *)
Definition scan (exts : list string) (candidates : list candidate)
  : list local_path :=
  cand_path <$> filter (λ c, selected exts c = true) candidates.

(** *** Vocabulary of the properties *)

Definition is_upper (c : ascii) : bool :=
  let n := nat_of_ascii c in ((65 <=? n) && (n <=? 90))%nat.

(** [s.lower()] on a string. *)
Definition lower_string (s : string) : string :=
  string_of_list_ascii (lower (list_ascii_of_string s)).

(** The characters of a string. *)
Definition chars (s : string) : list ascii := list_ascii_of_string s.

(** A string of ASCII characters only, on which [lower] is [str.lower()]. *)
Definition ascii_only (s : string) : Prop :=
  Forall (λ c, (nat_of_ascii c < 128)%nat) (chars s).

(** A regular file at [dir/name]. *)
Definition file_at (dir name : string) : candidate :=
  {| cand_path := {| as_posix := dir ++ "/" ++ name; relative_posix := name |};
     is_file := true |}.

End Scanner.

(** ** The upload stage: lines 123-142 of [main], and the run from the
    listing on *)

Module Main.
Import Py Batcher Invoker RemoteIndex Diff Scanner.

(** [a // b] *)
Definition floordiv (a b : Z) : res Z :=
  if b =? 0 then Raise (OtherException "ZeroDivisionError") else Ok (a / b).

(** The number of requests the closing message reports:
    [(total - 1)//batch_sz + 1]. *)
Definition request_count (total batch_sz : Z) : res Z :=
  q ← floordiv (total - 1) batch_sz;
  Ok (q + 1).

(** The loop of lines 132-137 with its counter [sent]: one wrapped call
    per batch, each observed for at most [fuel] iterations. *)
Fixpoint upload_loop {W V X} (fuel : nat) (upload : list X → op W V)
    (chunks : list (list X)) (sent : Z) (w : W)
  : outcome Z * W * list event :=
  match chunks with
  | [] => (Returned sent, w, [])
  | chunk :: rest =>
      let '(o, w1, t) := retry_on_rate_limit fuel (upload chunk) w in
      match o with
      | Returned _ =>
          let '(o', w2, t') :=
            upload_loop fuel upload rest (sent + Z.of_nat (length chunk)) w1 in
          (o', w2, t ++ t')
      | Raised e => (Raised e, w1, t)
      | Running d => (Running d, w1, t)
      end
  end.

(** How a run ends: with the closing message (files sent, requests
    reported), without uploading (nothing to send, or the operator did not
    answer yes), with [sys.exit] on an API error, with an exception, or
    still waiting in a retry loop when the observation ends. *)
Inductive ending :=
| Finished (sent requests : Z)
| Declined
| ApiExit (d : detail)
| Crashed (e : exn)
| Waiting (delay : Z).

(** [not skip_input and (not total or _input("Continue? [y/N] ").lower()
    != "y")]; [answer] is what the operator types when asked. *)
Definition stops (skip_input : bool) (total : Z) (answer : string) : bool :=
  negb skip_input
  && ((total =? 0)
      || negb (String.eqb (lower_string answer) "y")).

(** Lines 123-142. *)
Definition upload_stage {W V} (fuel : nat) (skip_input : bool)
    (answer : string) (batch_sz : Z) (to_send : list (string * string))
    (upload : list (string * string) → op W V) (w : W)
  : ending * W * list event :=
  let total := Z.of_nat (length to_send) in
  if stops skip_input total answer then (Declined, w, [])
  else
    match chunked to_send batch_sz with
    | Raise e => (Crashed e, w, [])
    | Ok chunks =>
        let '(o, w1, t) := upload_loop fuel upload chunks 0 w in
        match o with
        | Returned sent =>
            (match request_count total batch_sz with
             | Ok requests => Finished sent requests
             | Raise e => Crashed e
             end, w1, t)
        | Raised e => (Crashed e, w1, t)
        | Running d => (Waiting d, w1, t)
        end
    end.

(** Lines 102-142: the listing, the index, the scan, the diff and the
    upload stage.  The result carries the trace of the listing call and the
    trace of the uploads. *)
Definition sync {W V} (fuel : nat) (skip_input has_file_digest : bool)
    (answer : string) (batch_sz : Z) (exts : list string)
    (listitems : op W (gmap string field))
    (upload : list (string * string) → op W V)
    (fs : gmap string (list byte)) (candidates : list candidate) (w : W)
  : ending * W * list event * list event :=
  let '(o, w1, t1) := retry_on_rate_limit fuel listitems w in
  match o with
  | Returned raw =>
      match remote_index raw with
      | Index idx =>
          let local := scan exts candidates in
          match diff has_file_digest fs idx local with
          | Ok (to_send, _) =>
              let '(e, w2, t2) :=
                upload_stage fuel skip_input answer batch_sz to_send upload w1 in
              (e, w2, t1, t2)
          | Raise e => (Crashed e, w1, t1, [])
          end
      | ApiError d => (ApiExit d, w1, t1, [])
      | Failed e => (Crashed e, w1, t1, [])
      end
  | Raised e => (Crashed e, w1, t1, [])
  | Running d => (Waiting d, w1, t1, [])
  end.

(** *** Vocabulary of the properties *)

(** An upload that records what it is given and always succeeds: the world
    is the list of the batches received so far. *)
Definition recording {X} : list X → op (list (list X)) unit :=
  λ chunk w, (Ok (), w ++ [chunk]).

(** The entry the service lists for a local file it holds as it is. *)
Definition in_sync (fs : gmap string (list byte))
    (idx : gmap string (value * value)) (p : local_path) : Prop :=
  ∃ content,
    fs !! as_posix p = Some content
    ∧ idx !! relative_posix p
      = Some (VInt (Z.of_nat (length content)), VStr (Hasher.sha1_hex content)).

End Main.

(* ===================================================================== *)
(** * Part 2: properties                                                  *)
(* ===================================================================== *)

Module PyFacts.
Import Py.

Lemma str_ne_false (s : string) (v : value) :
  str_ne s v = false ↔ v = VStr s.
Proof.
  destruct v as [| | |s']; unfold str_ne; try (split; discriminate).
  rewrite negb_false_iff, String.eqb_eq. split; intros H; by simplify_eq.
Qed.

Lemma str_ne_true (s : string) (v : value) :
  str_ne s v = true ↔ v ≠ VStr s.
Proof.
  rewrite <- not_false_iff_true, str_ne_false. done.
Qed.

Example int_ne_examples :
  int_ne 3 (VInt 3) = false ∧ int_ne 3 (VInt 5) = true
  ∧ int_ne 3 VNone = true ∧ int_ne 1 (VBool true) = false
  ∧ int_ne 3 (VStr "3") = true.
Proof. by repeat split. Qed.

End PyFacts.

Module BatcherFacts.
Import Py Batcher.

Example chunked_5_by_2 :
  chunked [1; 2; 3; 4; 5] 2 = Ok [[1; 2]; [3; 4]; [5]].
Proof. reflexivity. Qed.

Example py_int_100 : py_int " +1_00 " = Ok 100.
Proof. reflexivity. Qed.

Example py_int_float : raises (py_int "2.5").
Proof. eexists. reflexivity. Qed.

Example py_int_underscores :
  raises (py_int "1__0") ∧ raises (py_int "_10") ∧ raises (py_int "10_").
Proof. repeat split; eexists; reflexivity. Qed.

(** The number of indices [range(0, L, n)] visits is [ceil(L / n)]. *)
Lemma range_len_ceil (L n : Z) :
  0 ≤ L → 0 < n → range_len 0 L n = (L + n - 1) / n.
Proof.
  intros HL Hn. unfold range_len.
  destruct (Z.ltb_spec 0 n) as [_|]; [|lia].
  destruct (Z.ltb_spec 0 L) as [HL'|HL'].
  - replace (L + n - 1) with (L - 1 + 1 * n) by lia.
    rewrite Z.div_add by lia. f_equal. f_equal. lia.
  - assert (L = 0) by lia. subst L.
    symmetry. apply Z.div_small. lia.
Qed.

(** [(L + n - 1) / n] is the least [c] with [L ≤ c * n]. *)
Lemma ceil_bounds (L n : Z) :
  0 ≤ L → 0 < n →
  let c := (L + n - 1) / n in (c - 1) * n < L ≤ c * n.
Proof.
  intros HL Hn c.
  pose proof (Z.div_mod (L + n - 1) n ltac:(lia)) as Hdm.
  pose proof (Z.mod_pos_bound (L + n - 1) n Hn) as Hm.
  fold c in Hdm. nia.
Qed.

(** A slice that starts at a non-negative index and spans [n > 0] items is
    a [take] of a [drop]. *)
Lemma slice_take_drop {A} (l : list A) (i n : Z) :
  0 ≤ i → 0 < n →
  slice l i (i + n) = take (Z.to_nat n) (drop (Z.to_nat i) l).
Proof.
  intros Hi Hn. unfold slice, clamp.
  destruct (Z.ltb_spec i 0) as [|_]; [lia|].
  destruct (Z.ltb_spec (i + n) 0) as [|_]; [lia|].
  pose (len := Z.of_nat (length l)). fold len.
  assert (len = Z.of_nat (length l)) as Hlen by done. clearbody len.
  destruct (Z.le_gt_cases i len) as [Hle|Hgt].
  - rewrite (Z.min_l i len) by lia.
    destruct (Z.le_gt_cases (i + n) len) as [Hle'|Hgt'].
    + rewrite Z.min_l by lia. f_equal. lia.
    + rewrite Z.min_r by lia.
      rewrite (take_ge _ (Z.to_nat n)) by (rewrite length_drop; lia).
      apply take_ge. rewrite length_drop. lia.
  - rewrite (Z.min_r i len), (Z.min_r (i + n) len) by lia.
    rewrite Z.sub_diag. rewrite !drop_ge by lia. by destruct (Z.to_nat n).
Qed.

(** [chunked] with a positive batch size, on natural numbers: batch [k] is
    [seq[k*b : k*b + b]]. *)
Lemma chunked_take_drop {A} (seq0 : list A) (n : Z) :
  0 < n →
  chunked seq0 n =
  Ok (map (fun k : nat => take (Z.to_nat n) (drop (k * Z.to_nat n) seq0))
          (seq 0 (Z.to_nat ((Z.of_nat (length seq0) + n - 1) / n)))).
Proof.
  intros Hn. unfold chunked, py_range.
  destruct (Z.eqb_spec n 0) as [|_]; [lia|].
  rewrite range_len_ceil by lia. cbn. f_equal.
  rewrite map_map. apply map_ext. intros k.
  rewrite Z.add_0_l, slice_take_drop by lia.
  do 2 f_equal. lia.
Qed.

Lemma concat_batches {A} (l : list A) (b m : nat) :
  concat (map (fun k : nat => take b (drop (k * b) l)) (seq 0 m))
  = take (m * b) l.
Proof.
  induction m as [|m IH]; [done|].
  rewrite seq_S, map_app, concat_app, IH. cbn [map concat].
  rewrite app_nil_r, take_take_drop. f_equal. lia.
Qed.

(** C3.  For a positive batch size [n], [chunked seq n] yields
    [ceil(L / n)] batches ([L] the length of [seq]); batch [k] is the
    contiguous slice of [seq] that starts at index [k * n] and holds at most
    [n] items; every batch but the last holds exactly [n] items and the last
    holds between 1 and [n]; the batches concatenated in order give [seq]
    back; and an empty [seq] yields no batch. *)
Theorem chunked_partition {A} (seq0 : list A) (n : Z) :
  0 < n →
  ∃ batches : list (list A),
    chunked seq0 n = Ok batches
    ∧ Z.of_nat (length batches) = (Z.of_nat (length seq0) + n - 1) / n
    ∧ (Z.of_nat (length batches) - 1) * n < Z.of_nat (length seq0)
        ≤ Z.of_nat (length batches) * n
    ∧ (∀ (k : nat) (b : list A), batches !! k = Some b →
         b = take (Z.to_nat n) (drop (k * Z.to_nat n) seq0)
         ∧ (if decide (S k = length batches)
            then 0 < Z.of_nat (length b) ≤ n
            else Z.of_nat (length b) = n))
    ∧ concat batches = seq0
    ∧ (seq0 = [] → batches = []).
Proof.
  intros Hn. eexists. split; [by apply chunked_take_drop|].
  pose proof (ceil_bounds (Z.of_nat (length seq0)) n ltac:(lia) Hn) as Hc.
  cbv zeta in Hc.
  remember (Z.of_nat (length seq0)) as L eqn:HL.
  remember ((L + n - 1) / n) as c eqn:Hcdef.
  assert (0 ≤ c) as Hc0 by (subst c; apply Z.div_pos; lia).
  rewrite length_map, length_seq. rewrite (Z2Nat.id c) by done.
  split; [done|]. split; [done|]. split; [|split].
  - intros k b Hk. rewrite list_lookup_fmap in Hk.
    destruct (seq 0 (Z.to_nat c) !! k) as [k'|] eqn:Hseq; [|done].
    apply lookup_seq in Hseq as [-> Hlt]. cbn in Hk. injection Hk as <-.
    split; [done|].
    rewrite length_take, length_drop.
    case_decide; nia.
  - rewrite concat_batches. apply take_ge. nia.
  - intros ->. cbn in HL. assert (c = 0) as -> by nia. done.
Qed.

(** The batches of the spec's example: five items by two. *)
Lemma chunked_partition_witness :
  ∃ batches : list (list Z),
    chunked [1; 2; 3; 4; 5] 2 = Ok batches
    ∧ Z.of_nat (length batches) = (Z.of_nat (length [1; 2; 3; 4; 5]) + 2 - 1) / 2
    ∧ (Z.of_nat (length batches) - 1) * 2 < Z.of_nat (length [1; 2; 3; 4; 5])
        ≤ Z.of_nat (length batches) * 2
    ∧ (∀ (k : nat) (b : list Z), batches !! k = Some b →
         b = take (Z.to_nat 2) (drop (k * Z.to_nat 2) [1; 2; 3; 4; 5])
         ∧ (if decide (S k = length batches)
            then 0 < Z.of_nat (length b) ≤ 2
            else Z.of_nat (length b) = 2))
    ∧ concat batches = [1; 2; 3; 4; 5]
    ∧ ([1; 2; 3; 4; 5] = [] → batches = []).
Proof. apply (chunked_partition [1; 2; 3; 4; 5] 2). lia. Defined.

(** A negative batch size is not refused: the range is empty, the batcher
    yields nothing and raises nothing, and the three pending transfers are
    left out without an error. *)
Lemma negative_batch_size_counterexample :
  chunked ["a.html"; "b.css"; "c.js"]%string (-2) = Ok []
  ∧ batches_of (Some "-2"%string) ["a.html"; "b.css"; "c.js"]%string = Ok []
  ∧ ¬ raises (batches_of (Some "-2"%string) ["a.html"; "b.css"; "c.js"]%string).
Proof.
  split; [reflexivity|]. split; [reflexivity|].
  intros [e He]. discriminate He.
Qed.

Lemma chunked_zero {A} (seq0 : list A) :
  chunked seq0 0 = Raise (ValueError "range() arg 3 must not be zero").
Proof. reflexivity. Qed.

Lemma chunked_negative {A} (seq0 : list A) (n : Z) :
  n < 0 → chunked seq0 n = Ok [].
Proof.
  intros Hn. unfold chunked, py_range, range_len.
  destruct (Z.eqb_spec n 0) as [|_]; [lia|].
  destruct (Z.ltb_spec 0 n) as [|_]; [lia|].
  destruct (Z.ltb_spec (Z.of_nat (length seq0)) 0) as [|_]; [lia|].
  reflexivity.
Qed.

(** C7, as the code has it.  A [batch_size] setting that [int()] does not
    accept makes the run fail with that [ValueError] before the batcher is
    reached; a batch size of zero makes the batcher fail with the
    [ValueError] of [range]; a negative batch size is accepted, and the
    batcher then yields no batch and raises nothing. *)
Theorem batch_size_not_positive {A} (cfg : option string) (to_send : list A) :
  (∀ e, batch_size_of cfg = Raise e → batches_of cfg to_send = Raise e)
  ∧ (batch_size_of cfg = Ok 0 →
     batches_of cfg to_send = Raise (ValueError "range() arg 3 must not be zero"))
  ∧ (∀ n, batch_size_of cfg = Ok n → n < 0 → batches_of cfg to_send = Ok []).
Proof.
  unfold batches_of. split; [|split].
  - by intros e ->.
  - by intros ->.
  - intros n -> Hn. by apply chunked_negative.
Qed.

Lemma batch_size_not_positive_witness :
  batches_of (Some "2.5"%string) [1; 2; 3]
  = Raise (ValueError "invalid literal for int() with base 10")
  ∧ batches_of (Some "0"%string) [1; 2; 3]
    = Raise (ValueError "range() arg 3 must not be zero")
  ∧ batches_of (Some "-4"%string) [1; 2; 3] = Ok [].
Proof.
  split; [|split].
  - apply (batch_size_not_positive (Some "2.5"%string) [1; 2; 3]). reflexivity.
  - apply (batch_size_not_positive (Some "0"%string) [1; 2; 3]). reflexivity.
  - apply (batch_size_not_positive (Some "-4"%string) [1; 2; 3]) with (-4);
      [reflexivity | lia].
Defined.

End BatcherFacts.

Module InvokerFacts.
Import Py Invoker.

Example transient_codes :
  filter (λ c, transient c = true) [200; 401; 404; 429; 500; 501; 502; 503; 504]
  = [429; 500; 502; 503; 504].
Proof. reflexivity. Qed.

Example spec_delay_first_six :
  map spec_delay (seq 0 6) = [60; 120; 240; 480; 600; 600].
Proof. reflexivity. Qed.

(** Three rate-limit answers, then success. *)
Example retry_scripted :
  retry_on_rate_limit 10 scripted
    [Raise (HTTPError (Some 429)); Raise (HTTPError (Some 503));
     Raise (HTTPError (Some 429)); Ok "listing"%string]
  = (Returned "listing"%string, [],
     [Call; Print 429 60; Sleep 60; Call; Print 503 120; Sleep 120;
      Call; Print 429 240; Sleep 240; Call]).
Proof. reflexivity. Qed.

(** The loop's update of [delay], iterated from 60, is the doubling
    schedule capped at 600. *)
Lemma iter_next_delay (k : nat) : Nat.iter k next_delay 60 = spec_delay k.
Proof.
  induction k as [|k IH]; [done|].
  rewrite Nat.iter_succ, IH. unfold next_delay, spec_delay.
  rewrite Nat2Z.inj_succ, Z.pow_succ_r by lia.
  assert (0 < 2 ^ Z.of_nat k) by (apply Z.pow_pos_nonneg; lia).
  lia.
Qed.

Lemma transient_streak_S {W V} (fn : op W V) (n : nat) (w : W) :
  transient_streak fn (S n) w →
  transient_failure fn w ∧ transient_streak fn n (fn w).2.
Proof.
  intros H. split.
  - apply (H 0%nat). lia.
  - intros k Hk. apply (H (S k)). lia.
Qed.

Lemma streak_trace_cons (delay c : Z) (codes : list Z) :
  streak_trace delay (c :: codes)
  = Call :: Print c delay :: Sleep delay :: streak_trace (next_delay delay) codes.
Proof.
  unfold streak_trace. rewrite imap_cons. simpl. do 3 f_equal. f_equal.
  apply imap_ext. intros k sc _. unfold compose.
  by rewrite !Nat.iter_succ_r.
Qed.

Lemma sleeps_streak_trace (delay : Z) (codes : list Z) :
  sleeps (streak_trace delay codes)
  = map (λ k, Nat.iter k next_delay delay) (seq 0 (length codes)).
Proof.
  revert delay. induction codes as [|c codes IH]; intros delay; [done|].
  rewrite streak_trace_cons. cbn. f_equal.
  unfold sleeps in IH. rewrite IH, <- seq_shift, map_map.
  apply map_ext. intros k. by rewrite Nat.iter_succ_r.
Qed.

Lemma calls_streak_trace (delay : Z) (codes : list Z) :
  calls (streak_trace delay codes) = length codes.
Proof.
  revert delay. induction codes as [|c codes IH]; intros delay; [done|].
  rewrite streak_trace_cons. cbn. f_equal. apply IH.
Qed.

(** While the failures are transient the loop goes on: after [n] of them it
    is still running, and what follows is the loop entered afresh with the
    delay reached. *)
Lemma attempts_streak {W V} (fn : op W V) (n : nat) :
  ∀ (delay : Z) (w : W),
    transient_streak fn n w →
    ∃ codes,
      length codes = n
      ∧ Forall (λ c, transient c = true) codes
      ∧ ∀ fuel,
          attempts (n + fuel) fn delay w
          = let '(o, w', t) :=
              attempts fuel fn (Nat.iter n next_delay delay) (after fn n w) in
            (o, w', streak_trace delay codes ++ t).
Proof.
  induction n as [|n IH]; intros delay w Hs.
  - exists []. split; [done|]. split; [done|]. intros fuel. cbn.
    by destruct (attempts fuel fn delay w) as [[o w'] t].
  - apply transient_streak_S in Hs as [(sc & Hfn & Hsc) Hs].
    destruct (IH (next_delay delay) _ Hs) as (codes & Hlen & Hall & Hrun).
    exists (sc :: codes). split; [by cbn; f_equal|].
    split; [by constructor|]. intros fuel.
    cbn [Nat.add attempts after]. destruct (fn w) as [r w1].
    cbn [fst snd] in Hfn, Hrun |- *.
    subst r. rewrite Hsc, Hrun, Nat.iter_succ_r.
    destruct (attempts fuel fn _ _) as [[o w'] t].
    by rewrite streak_trace_cons.
Qed.

(** After [n] transient failures in a row the invoker is still in its
    loop; the next call decides how it ends. *)
Lemma retry_after_streak {W V} (fn : op W V) (w : W) (n : nat) :
  transient_streak fn n w →
  ∃ codes : list Z,
    length codes = n
    ∧ Forall (λ c, c ∈ [429; 500; 502; 503; 504]) codes
    ∧ retry_on_rate_limit n fn w
      = (Running (spec_delay n), after fn n w, streak_trace 60 codes)
    ∧ sleeps (streak_trace 60 codes) = map spec_delay (seq 0 n)
    ∧ calls (streak_trace 60 codes) = n
    ∧ (∀ fuel v w',
         fn (after fn n w) = (Ok v, w') →
         retry_on_rate_limit (n + S fuel) fn w
         = (Returned v, w', streak_trace 60 codes ++ [Call]))
    ∧ (∀ fuel e w',
         fn (after fn n w) = (Raise e, w') →
         ¬ transient_failure fn (after fn n w) →
         ∃ e', retry_on_rate_limit (n + S fuel) fn w
               = (Raised e', w', streak_trace 60 codes ++ [Call])).
Proof.
  intros Hs. unfold retry_on_rate_limit.
  destruct (attempts_streak fn n 60 w Hs) as (codes & Hlen & Hall & Hrun).
  exists codes. split; [done|]. split.
  { eapply Forall_impl; [exact Hall|]. intros c Hc.
    unfold transient in Hc. by apply bool_decide_eq_true in Hc. }
  split.
  { specialize (Hrun 0%nat). rewrite Nat.add_0_r in Hrun. rewrite Hrun. cbn.
    by rewrite app_nil_r, iter_next_delay. }
  split.
  { rewrite sleeps_streak_trace, Hlen. apply map_ext. intros k.
    apply iter_next_delay. }
  split; [by rewrite calls_streak_trace|]. split.
  - intros fuel v w' Hfn. rewrite Hrun. cbn. by rewrite Hfn.
  - intros fuel e w' Hfn Hnt. rewrite Hrun. cbn. rewrite Hfn.
    destruct e as [| | | | |[sc|]|]; try by eexists.
    destruct (transient sc) eqn:Hsc; [|by eexists].
    exfalso. apply Hnt. exists sc. by rewrite Hfn.
Qed.

(** C2.  When the wrapped operation fails [n] times in a row with an HTTP
    status among 429, 500, 502, 503 and 504, the invoker has by then made
    [n] calls, each followed by a warning and a sleep, the sleeps being 60,
    120, 240, 480, 600, 600, ... (60 doubled, capped at 600); it is still in
    its loop and has raised nothing, whatever [n] is.  If the next call
    returns, the invoker returns that value; if the next call fails
    otherwise than with one of these statuses, the invoker raises; in both
    cases without a further sleep. *)
Theorem backoff_schedule {W V} (fn : op W V) (w : W) (n : nat) :
  (∀ k, (k < n)%nat →
        ∃ status_code,
          (fn (after fn k w)).1 = Raise (HTTPError (Some status_code))
          ∧ status_code ∈ [429; 500; 502; 503; 504]) →
  ∃ codes : list Z,
    length codes = n
    ∧ Forall (λ c, c ∈ [429; 500; 502; 503; 504]) codes
    ∧ retry_on_rate_limit n fn w
      = (Running (spec_delay n), after fn n w, streak_trace 60 codes)
    ∧ sleeps (streak_trace 60 codes) = map spec_delay (seq 0 n)
    ∧ calls (streak_trace 60 codes) = n
    ∧ (∀ fuel v w',
         fn (after fn n w) = (Ok v, w') →
         retry_on_rate_limit (n + S fuel) fn w
         = (Returned v, w', streak_trace 60 codes ++ [Call]))
    ∧ (∀ fuel e w',
         fn (after fn n w) = (Raise e, w') →
         (∀ status_code, e = HTTPError (Some status_code) →
                         status_code ∉ [429; 500; 502; 503; 504]) →
         ∃ e', retry_on_rate_limit (n + S fuel) fn w
               = (Raised e', w', streak_trace 60 codes ++ [Call])).
Proof.
  intros Hs.
  assert (transient_streak fn n w) as Hs'.
  { intros k Hk. destruct (Hs k Hk) as (sc & Hfn & Hsc).
    exists sc. split; [done|]. unfold transient. by apply bool_decide_eq_true. }
  destruct (retry_after_streak fn w n Hs')
    as (codes & Hlen & Hall & Hrun & Hsl & Hcalls & Hok & Hraise).
  exists codes. do 6 (split; [done|]).
  intros fuel e w' Hfn He. apply (Hraise fuel e w' Hfn).
  intros (sc & Hfn' & Hsc). rewrite Hfn in Hfn'. cbn in Hfn'.
  injection Hfn' as ->. apply (He sc eq_refl).
  unfold transient in Hsc. by apply bool_decide_eq_true in Hsc.
Qed.

(** Each of the five statuses in turn and 429 again, then the listing. *)
Lemma backoff_schedule_witness :
  let w :=
    [Raise (HTTPError (Some 429)); Raise (HTTPError (Some 500));
     Raise (HTTPError (Some 502)); Raise (HTTPError (Some 503));
     Raise (HTTPError (Some 504)); Raise (HTTPError (Some 429));
     Ok "listing"%string] in
  (∀ k, (k < 6)%nat →
        ∃ status_code,
          (scripted (after scripted k w)).1
          = Raise (HTTPError (Some status_code))
          ∧ status_code ∈ [429; 500; 502; 503; 504])
  ∧ ∃ t, retry_on_rate_limit 6 scripted w = (Running 600, [Ok "listing"%string], t)
         ∧ sleeps t = [60; 120; 240; 480; 600; 600]
         ∧ retry_on_rate_limit 7 scripted w
           = (Returned "listing"%string, [], t ++ [Call]).
Proof.
  intros w.
  assert (∀ k, (k < 6)%nat →
               ∃ status_code,
                 (scripted (after scripted k w)).1
                 = Raise (HTTPError (Some status_code))
                 ∧ status_code ∈ [429; 500; 502; 503; 504]) as Hs.
  { intros k Hk.
    do 6 (destruct k as [|k];
          [eexists; split; [reflexivity|];
           apply (bool_decide_unpack _); vm_compute; exact I|]).
    lia. }
  split; [exact Hs|].
  destruct (backoff_schedule scripted w 6 Hs)
    as (codes & _ & _ & Hrun & Hsl & _ & Hok & _).
  exists (streak_trace 60 codes). split; [exact Hrun|]. split; [exact Hsl|].
  apply (Hok 0%nat). reflexivity.
Defined.





(** Two batches uploaded in one run.  The first upload is refused twice
    with 429, which takes its delay from 60 to 120 to 240, and then goes
    through; the second upload is refused once.  The wait before its retry
    is 60, not 240. *)
Lemma delay_carried_over_counterexample :
  let w : list (res unit) :=
    [Raise (HTTPError (Some 429)); Raise (HTTPError (Some 429)); Ok ();
     Raise (HTTPError (Some 429)); Ok ()] in
  (attempts 2 scripted 60 w).1.1 = Running 240
  ∧ upload_batches 5 scripted_upload [["a.html"]; ["b.css"]]%string w
    = (Returned (), [],
       [Call; Print 429 60; Sleep 60; Call; Print 429 120; Sleep 120; Call;
        Call; Print 429 60; Sleep 60; Call])
  ∧ sleeps (upload_batches 5 scripted_upload
              [["a.html"]; ["b.css"]]%string w).2
    ≠ [60; 120; 240].
Proof. cbv zeta. split; [reflexivity|]. split; [reflexivity|]. discriminate. Qed.

(** C6, as the code has it.  [delay] is a local variable that every call of
    the invoker sets to 60: when one wrapped call met [n] transient failures
    (so that its delay went up to the [n]-th of the schedule) and then
    returned, the first transient failure of the next wrapped call of the
    run is followed by a sleep of 60. *)
Theorem delay_restarts_each_call {W V X} (upload : list X → op W V)
    (c1 c2 : list X) (w w1 : W) (n fuel : nat) (v : V) :
  transient_streak (upload c1) n w →
  upload c1 (after (upload c1) n w) = (Ok v, w1) →
  transient_failure (upload c2) w1 →
  ∃ codes status_code t,
    length codes = n
    ∧ (retry_on_rate_limit n (upload c1) w).1.1 = Running (spec_delay n)
    ∧ (upload_batches (n + S fuel) upload [c1; c2] w).2
      = (streak_trace 60 codes ++ [Call])
        ++ Call :: Print status_code 60 :: Sleep 60 :: t
    ∧ sleeps (upload_batches (n + S fuel) upload [c1; c2] w).2
      = map spec_delay (seq 0 n) ++ 60 :: sleeps t.
Proof.
  intros Hs Hok (sc & Hfail & Hsc).
  destruct (retry_after_streak (upload c1) w n Hs)
    as (codes & Hlen & _ & Hrun & Hsl & _ & Hret & _).
  assert (∃ o w2 t, attempts (n + fuel) (upload c2) (next_delay 60) (upload c2 w1).2
                    = (o, w2, t)) as (o & w2 & t & Hrest).
  { destruct (attempts _ _ _ _) as [[o w2] t]. by exists o, w2, t. }
  exists codes, sc, t. split; [done|]. split; [by rewrite Hrun|].
  assert ((upload_batches (n + S fuel) upload [c1; c2] w).2
          = (streak_trace 60 codes ++ [Call])
            ++ Call :: Print sc 60 :: Sleep 60 :: t) as Htrace.
  { cbn [upload_batches]. rewrite (Hret fuel v w1 Hok).
    unfold retry_on_rate_limit at 1. rewrite Nat.add_succ_r. cbn [attempts].
    destruct (upload c2 w1) as [r w1']. cbn [fst snd] in Hfail, Hrest.
    subst r. rewrite Hsc, Hrest.
    destruct o; cbn; by rewrite ?app_nil_r. }
  split; [exact Htrace|].
  rewrite Htrace. unfold sleeps in *. rewrite !omap_app, Hsl. cbn.
  by rewrite app_nil_r.
Qed.

Lemma delay_restarts_each_call_witness :
  let w : list (res unit) :=
    [Raise (HTTPError (Some 429)); Raise (HTTPError (Some 429)); Ok ();
     Raise (HTTPError (Some 429)); Ok ()] in
  ∃ t, sleeps (upload_batches 3 scripted_upload
                 [["a.html"]; ["b.css"]]%string w).2
       = [60; 120] ++ 60 :: sleeps t.
Proof.
  intros w.
  destruct (delay_restarts_each_call (V := unit) scripted_upload
              ["a.html"%string] ["b.css"%string] w
              [Raise (HTTPError (Some 429)); Ok ()] 2 0 ())
    as (codes & sc & t & _ & _ & _ & Hsl).
  - intros k Hk. do 2 (destruct k as [|k]; [by exists 429|]). lia.
  - reflexivity.
  - by exists 429.
  - exists t. exact Hsl.
Defined.

End InvokerFacts.

Module HasherFacts.
Import Py Sha1 Hasher.

Example sha1_abc :
  sha1_hex (list_byte_of_string "abc")
  = "a9993e364706816aba3e25717850c26c9cd0d89d"%string.
Proof. vm_compute. reflexivity. Qed.

Example sha1_empty :
  sha1_hex [] = "da39a3ee5e6b4b0d3255bfef95601890afd80709"%string.
Proof. vm_compute. reflexivity. Qed.

Example sha1_two_blocks :
  sha1_hex (list_byte_of_string
              "abcdbcdecdefdefgefghfghighijhijkijkljklmklmnlmnomnopnopq")
  = "84983e441c3bd26ebaae4aa1f95129e5e54670f1"%string.
Proof. vm_compute. reflexivity. Qed.

(** With [buf = 0] the first [read] already returns [b""]: the manual loop
    hashes nothing. *)
Example manual_loop_buf_0 :
  sha1_file false {[ "/site/a.txt"%string := list_byte_of_string "abc" ]}
    "/site/a.txt" 0
  = Ok "da39a3ee5e6b4b0d3255bfef95601890afd80709"%string.
Proof. vm_compute. reflexivity. Qed.

(** A file longer than a block, read seven bytes at a time. *)
Example manual_loop_small_reads :
  let content :=
    list_byte_of_string
      "abcdbcdecdefdefgefghfghighijhijkijkljklmklmnlmnomnopnopqabcdbcdecdefdefg" in
  sha1_file false {[ "/site/a.txt"%string := content ]} "/site/a.txt" 7
  = sha1_file true {[ "/site/a.txt"%string := content ]} "/site/a.txt" 7.
Proof. vm_compute. reflexivity. Qed.

(** A [buf] below -1 is refused by [read]: the manual path raises, the
    [file_digest] path does not use [buf]. *)
Example manual_loop_negative_buf :
  sha1_file false {[ "/site/a.txt"%string := list_byte_of_string "abc" ]}
    "/site/a.txt" (-5)
  = Raise (ValueError "read length must be non-negative or -1")
  ∧ sha1_file true {[ "/site/a.txt"%string := list_byte_of_string "abc" ]}
      "/site/a.txt" (-5)
    = Ok "a9993e364706816aba3e25717850c26c9cd0d89d"%string.
Proof. split; vm_compute; reflexivity. Qed.

Example unreadable_file :
  sha1_file true ∅ "/site/a.txt" default_buf = Raise (OSError "/site/a.txt").
Proof. reflexivity. Qed.

(** A read that returns bytes leaves fewer bytes unread. *)
Lemma read_shrinks (size : Z) (fh chunk rest : list byte) :
  read size fh = Ok (chunk, rest) → chunk ≠ [] →
  (length rest < length fh)%nat.
Proof.
  unfold read. destruct (size <? -1); [done|].
  destruct (size <? 0); intros [= <- <-] Hne.
  - destruct fh; [done|]. cbn. lia.
  - rewrite length_drop.
    destruct fh as [|b fh]; [by rewrite take_nil in Hne|].
    destruct (Z.to_nat size); [done|]. cbn. lia.
Qed.

Lemma readinto_shrinks (cap : Z) (fh : list byte) :
  (readinto cap fh).1.1 ≠ 0 → (length (readinto cap fh).2 < length fh)%nat.
Proof.
  unfold readinto. cbn. rewrite length_take, length_drop. lia.
Qed.

(** The loops and the block consumer, one step unfolded. *)
Lemma absorb_eq (h : chain) (data : list byte) :
  absorb h data
  = if decide (64 ≤ length data)%nat
    then absorb (compress h (take 64 data)) (drop 64 data)
    else (h, data).
Proof. rewrite absorb_equation_1. by destruct (decide _). Qed.

(** Feeding [a] and then [b] consumes the same blocks as feeding them at
    once. *)
Lemma absorb_app (n : nat) :
  ∀ (a : list byte) (h : chain) (b : list byte),
    length a = n →
    absorb h (a ++ b) = let '(c, r) := absorb h a in absorb c (r ++ b).
Proof.
  induction n as [n IH] using lt_wf_ind. intros a h b Hlen.
  rewrite (absorb_eq h a).
  destruct (decide (64 ≤ length a)%nat) as [Hge|Hlt]; [|done].
  rewrite (absorb_eq h (a ++ b)), length_app.
  destruct (decide (64 ≤ length a + length b)%nat) as [_|]; [|lia].
  rewrite take_app_le, drop_app_le by done.
  apply (IH (length (drop 64 a))); [|done].
  rewrite length_drop. lia.
Qed.

Lemma update_app (h : hasher) (a b : list byte) :
  update (update h a) b = update h (a ++ b).
Proof.
  unfold update. rewrite app_assoc.
  rewrite (absorb_app _ (buffered h ++ a) (chaining h) b eq_refl).
  destruct (absorb (chaining h) (buffered h ++ a)) as [c r]. cbn.
  destruct (absorb c (r ++ b)) as [c' r']. f_equal.
  rewrite length_app. lia.
Qed.

Lemma manual_loop_eq (buf : Z) (fh : list byte) (h : hasher) :
  manual_loop buf fh h
  = match read buf fh with
    | Raise e => Raise e
    | Ok (chunk, rest) =>
        if decide (chunk = []) then Ok h
        else manual_loop buf rest (update h chunk)
    end.
Proof.
  rewrite manual_loop_equation_1. unfold inspect.
  assert (∀ r (Hr : read buf fh = r),
            manual_loop_unfold_clause_1 buf fh (r ↾ Hr) h
            = match r with
              | Raise e => Raise e
              | Ok (chunk, rest) =>
                  if decide (chunk = []) then Ok h
                  else manual_loop buf rest (update h chunk)
              end) as Hgen.
  { intros [[chunk rest]|e] Hr; cbn; [|done].
    by destruct (decide (chunk = [])). }
  apply Hgen.
Qed.

Lemma file_digest_loop_eq (bufsize : Z) (fh : list byte) (h : hasher) :
  file_digest_loop bufsize fh h
  = if decide ((readinto bufsize fh).1.1 = 0) then h
    else file_digest_loop bufsize (readinto bufsize fh).2
           (update h (take (Z.to_nat (readinto bufsize fh).1.1)
                           (readinto bufsize fh).1.2)).
Proof. rewrite file_digest_loop_equation_1. by destruct (decide _). Qed.

Lemma fed_step (h : hasher) (chunk rest : list byte) :
  chunk ≠ [] → fed (update h chunk) rest = fed h (chunk ++ rest).
Proof.
  intros Hne. unfold fed.
  destruct (decide (rest = [])) as [->|_].
  - rewrite app_nil_r. by destruct (decide (chunk = [])).
  - destruct (decide (chunk ++ rest = [])) as [Heq|_].
    + by apply app_eq_nil in Heq as [? _].
    + apply update_app.
Qed.

(** The sizes [read] accepts and that make the loop advance: a positive
    size, or -1. *)
Lemma read_accepted (size : Z) (fh : list byte) :
  0 < size ∨ size = -1 →
  ∃ chunk rest,
    read size fh = Ok (chunk, rest)
    ∧ chunk ++ rest = fh
    ∧ (fh ≠ [] → chunk ≠ []).
Proof.
  intros Hs. unfold read.
  destruct (Z.ltb_spec size (-1)) as [|_]; [lia|].
  destruct (Z.ltb_spec size 0) as [Hneg|Hpos].
  - exists fh, []. by rewrite app_nil_r.
  - eexists _, _. split; [done|]. split; [apply take_drop|].
    intros Hfh. destruct fh as [|b fh]; [done|].
    destruct (Z.to_nat size) eqn:Hn; [lia|done].
Qed.

Lemma manual_loop_fed (buf : Z) (n : nat) :
  0 < buf ∨ buf = -1 →
  ∀ (fh : list byte) (h : hasher),
    length fh = n → manual_loop buf fh h = Ok (fed h fh).
Proof.
  intros Hbuf. induction n as [n IH] using lt_wf_ind. intros fh h Hlen.
  rewrite manual_loop_eq.
  destruct (read_accepted buf fh Hbuf) as (chunk & rest & Hr & Hparts & Hne).
  rewrite Hr. destruct (decide (chunk = [])) as [->|Hchunk].
  - unfold fed. destruct (decide (fh = [])) as [|Hfh]; [done|].
    by destruct (Hne Hfh).
  - rewrite (IH (length rest)); [|subst n; by eapply read_shrinks|done].
    by rewrite fed_step, Hparts.
Qed.

Lemma readinto_view (cap : Z) (fh : list byte) :
  take (Z.to_nat (readinto cap fh).1.1) (readinto cap fh).1.2
  = take (Z.to_nat cap) fh.
Proof. unfold readinto. cbn. apply take_ge. lia. Qed.

Lemma file_digest_loop_fed (bufsize : Z) (n : nat) :
  0 < bufsize →
  ∀ (fh : list byte) (h : hasher),
    length fh = n → file_digest_loop bufsize fh h = fed h fh.
Proof.
  intros Hbuf. induction n as [n IH] using lt_wf_ind. intros fh h Hlen.
  rewrite file_digest_loop_eq.
  destruct (decide ((readinto bufsize fh).1.1 = 0)) as [Hz|Hnz].
  - unfold fed. destruct (decide (fh = [])) as [|Hfh]; [done|].
    exfalso. unfold readinto in Hz. cbn in Hz. rewrite length_take in Hz.
    destruct fh; [done|]. cbn in Hz. lia.
  - rewrite (IH (length (readinto bufsize fh).2));
      [|subst n; by apply readinto_shrinks|done].
    rewrite readinto_view.
    rewrite fed_step.
    + unfold readinto. cbn. by rewrite take_drop.
    + intros Hnil. apply Hnz. unfold readinto. cbn. by rewrite Hnil.
Qed.

Lemma fed_new (fh : list byte) : fed new fh = update new fh.
Proof. unfold fed. by destruct (decide (fh = [])) as [->|]. Qed.




(** On a readable file both paths of [sha1_file] return the SHA-1 of the
    whole content, for every [buf] that [read] accepts and that is not 0. *)
Lemma sha1_file_readable (has_file_digest : bool)
    (fs : gmap string (list byte)) (p : string) (content : list byte)
    (buf : Z) :
  fs !! p = Some content →
  0 < buf ∨ buf = -1 →
  sha1_file has_file_digest fs p buf = Ok (sha1_hex content).
Proof.
  intros Hp Hbuf. unfold sha1_file, open, file_digest, sha1_hex. rewrite Hp.
  cbn [mbind res_bind bind]. destruct has_file_digest.
  - by rewrite (file_digest_loop_fed (2 ^ 18) _ eq_refl content new eq_refl),
         fed_new.
  - rewrite (manual_loop_fed buf _ Hbuf content new eq_refl).
    cbn [mbind res_bind bind]. by rewrite fed_new.
Qed.

Lemma sha1_file_default (has_file_digest : bool)
    (fs : gmap string (list byte)) (p : string) (content : list byte) :
  fs !! p = Some content →
  sha1_file has_file_digest fs p default_buf = Ok (sha1_hex content).
Proof. intros Hp. apply sha1_file_readable; [done|by left]. Qed.




End HasherFacts.

Module RemoteIndexFacts.
Import Py PyFacts RemoteIndex.

Example listing_with_directory :
  remote_index
    {[ "result"%string := Scalar (VStr "success");
       "files"%string :=
         Entries [file_entry "index.html" 1023 "c8aac06f343c962a24a7eb111aad739ff48b7fb1";
                  directory_entry "images";
                  file_entry "images/cat.png" 16793 "41fe08fc0dd44e79f799d03ece903e62be25dc7d"] ]}
  = Index {[ "index.html"%string :=
               (VInt 1023, VStr "c8aac06f343c962a24a7eb111aad739ff48b7fb1");
             "images/cat.png"%string :=
               (VInt 16793, VStr "41fe08fc0dd44e79f799d03ece903e62be25dc7d") ]}.
Proof. vm_compute. reflexivity. Qed.

Lemma result_is_success (raw : gmap string field) :
  result_ne_success raw = false
  ↔ raw !! "result"%string = Some (Scalar (VStr "success")).
Proof.
  unfold result_ne_success. split.
  - destruct (raw !! "result"%string) as [[v|]|]; try done.
    intros H. apply str_ne_false in H. by subst v.
  - by intros ->.
Qed.

Lemma comprehension_app (pre post : list (gmap string value))
    (acc : gmap string (value * value)) :
  comprehension (pre ++ post) acc
  = idx ← comprehension pre acc; comprehension post idx.
Proof.
  revert acc. induction pre as [|f pre IH]; intros acc; [done|].
  cbn [app comprehension].
  destruct (getitem f "is_directory") as [d|e]; [|done]. cbn.
  destruct (truthy d); [apply IH|].
  destruct (getitem f "path") as [path|e]; [|done]. cbn.
  destruct (getitem f "size") as [size|e]; [|done]. cbn.
  destruct (getitem f "sha1_hash") as [sha|e]; [|done]. cbn.
  apply IH.
Qed.

Lemma getitem_Ok (f : gmap string value) (key : string) (v : value) :
  getitem f key = Ok v ↔ f !! key = Some v.
Proof.
  unfold getitem. destruct (f !! key); split; intros H; by simplify_eq.
Qed.

(** Entries that miss [key] leave what the index holds under [key]. *)
Lemma comprehension_misses (key : string) (post : list (gmap string value)) :
  ∀ acc idx,
    comprehension post acc = Ok idx →
    Forall (misses key) post →
    idx !! key = acc !! key.
Proof.
  induction post as [|g post IH]; intros acc idx Hc Hall.
  - cbn in Hc. by simplify_eq.
  - apply Forall_cons in Hall as [Hg Hall]. cbn [comprehension] in Hc.
    destruct (getitem g "is_directory") as [d|e] eqn:Hd; [|done]. cbn in Hc.
    destruct (truthy d) eqn:Ht; [by apply IH|].
    destruct (getitem g "path") as [path|e] eqn:Hp; [|done]. cbn in Hc.
    destruct (getitem g "size") as [size|e]; [|done]. cbn in Hc.
    destruct (getitem g "sha1_hash") as [sha|e]; [|done]. cbn in Hc.
    rewrite (IH _ _ Hc Hall).
    destruct path as [| | |k]; try done.
    apply lookup_insert_ne. intros ->. apply Hg. split.
    + exists d. by apply getitem_Ok in Hd.
    + by apply getitem_Ok in Hp.
Qed.

(** The comprehension goes through on well-formed entries. *)
Lemma comprehension_total (files : list (gmap string value)) :
  ∀ acc, Forall well_formed files → ∃ idx, comprehension files acc = Ok idx.
Proof.
  induction files as [|f files IH]; intros acc Hall; [by eexists|].
  apply Forall_cons in Hall as [(d & Hd & Hf) Hall]. cbn [comprehension].
  unfold getitem. rewrite Hd. cbn.
  destruct (truthy d); [by apply IH|].
  destruct (Hf eq_refl) as ([path ->] & [size ->] & [sha ->]). cbn.
  by apply IH.
Qed.

(** Under [key] the index holds the size and hash of the last file entry
    whose path is [key], or what it held before when there is none. *)
Lemma comprehension_lookup (key : string) (files : list (gmap string value)) :
  ∀ acc idx,
    comprehension files acc = Ok idx →
    (Forall (misses key) files ∧ idx !! key = acc !! key)
    ∨ ∃ pre f post size sha,
        files = pre ++ f :: post
        ∧ is_file f
        ∧ f !! "path"%string = Some (VStr key)
        ∧ f !! "size"%string = Some size
        ∧ f !! "sha1_hash"%string = Some sha
        ∧ Forall (misses key) post
        ∧ idx !! key = Some (size, sha).
Proof.
  induction files as [|f files IH]; intros acc idx Hc.
  - left. cbn in Hc. by simplify_eq.
  - cbn [comprehension] in Hc.
    destruct (getitem f "is_directory") as [d|e] eqn:Hd; [|done]. cbn in Hc.
    apply getitem_Ok in Hd.
    destruct (truthy d) eqn:Ht.
    { destruct (IH _ _ Hc) as [[Hall Hk]|Hlast].
      - left. split; [|done]. constructor; [|done].
        intros [(d' & Hd' & Ht') _]. rewrite Hd in Hd'. congruence.
      - right. destruct Hlast as (pre & g & post & size & sha & -> & Hrest).
        by exists (f :: pre), g, post, size, sha. }
    destruct (getitem f "path") as [path|e] eqn:Hp; [|done]. cbn in Hc.
    destruct (getitem f "size") as [size|e] eqn:Hs; [|done]. cbn in Hc.
    destruct (getitem f "sha1_hash") as [sha|e] eqn:Hh; [|done]. cbn in Hc.
    apply getitem_Ok in Hp, Hs, Hh.
    destruct (IH _ _ Hc) as [[Hall Hk]|Hlast].
    + destruct (decide (path = VStr key)) as [->|Hne].
      * right. exists [], f, files, size, sha.
        rewrite Hk, lookup_insert_eq. repeat split; try done. by exists d.
      * left. split.
        { constructor; [|done]. intros [_ Hp']. by simplify_eq. }
        rewrite Hk. destruct path as [| | |k]; try done.
        apply lookup_insert_ne. by intros ->.
    + right. destruct Hlast as (pre & g & post & size' & sha' & -> & Hrest).
      by exists (f :: pre), g, post, size', sha'.
Qed.

(** A file entry followed only by entries that miss its path is the one
    the index keeps. *)
Lemma comprehension_last (key : string) (pre post : list (gmap string value))
    (f : gmap string value) (size sha : value)
    (idx : gmap string (value * value)) :
  comprehension (pre ++ f :: post) ∅ = Ok idx →
  is_file f →
  f !! "path"%string = Some (VStr key) →
  f !! "size"%string = Some size →
  f !! "sha1_hash"%string = Some sha →
  Forall (misses key) post →
  idx !! key = Some (size, sha).
Proof.
  intros Hc (d & Hd & Ht) Hp Hs Hh Hpost.
  rewrite comprehension_app in Hc.
  destruct (comprehension pre ∅) as [idx1|e]; [|done].
  cbn [mbind res_bind bind comprehension] in Hc.
  unfold getitem in Hc. rewrite Hd in Hc. cbn in Hc. rewrite Ht, Hp in Hc.
  cbn in Hc. rewrite Hs in Hc. cbn in Hc. rewrite Hh in Hc. cbn in Hc.
  rewrite (comprehension_misses key post _ _ Hc Hpost).
  apply lookup_insert_eq.
Qed.

(** C8.  When the listing's ["result"] is not ["success"], or it has no
    ["files"] key, the stage exits with an API error that carries
    [raw.get('message', raw)]: the message of the transport when there is
    one.  Otherwise, on a list of well-formed entries, it builds the index:
    under a path the index holds the size and hash of the last entry with
    that path that is not marked as a directory, and it holds nothing for
    the paths that only directories have. *)
Theorem remote_index_contract (raw : gmap string field) :
  (raw !! "result"%string ≠ Some (Scalar (VStr "success"))
   ∨ raw !! "files"%string = None →
   remote_index raw
   = ApiError (match raw !! "message"%string with
               | Some m => Message m
               | None => Whole raw
               end))
  ∧ (∀ files,
       raw !! "result"%string = Some (Scalar (VStr "success")) →
       raw !! "files"%string = Some (Entries files) →
       Forall well_formed files →
       ∃ idx,
         remote_index raw = Index idx
         ∧ ∀ key size sha,
             idx !! key = Some (size, sha)
             ↔ ∃ pre f post,
                 files = pre ++ f :: post
                 ∧ is_file f
                 ∧ f !! "path"%string = Some (VStr key)
                 ∧ f !! "size"%string = Some size
                 ∧ f !! "sha1_hash"%string = Some sha
                 ∧ Forall (misses key) post).
Proof.
  split.
  - intros H. unfold remote_index.
    replace (result_ne_success raw || files_not_in raw) with true; [done|].
    symmetry. apply orb_true_iff. destruct H as [H|H].
    + left. apply not_false_iff_true. by rewrite result_is_success.
    + right. unfold files_not_in. by rewrite H.
  - intros files Hres Hfiles Hwf. unfold remote_index.
    apply result_is_success in Hres as ->. unfold files_not_in.
    rewrite Hfiles. cbn [orb].
    destruct (comprehension_total files ∅ Hwf) as [idx Hc]. rewrite Hc.
    exists idx. split; [done|]. intros key size sha. split.
    + intros Hk.
      destruct (comprehension_lookup key files _ _ Hc)
        as [[_ Hnone]|(pre & f & post & size' & sha' & Hlast)].
      * rewrite Hk, lookup_empty in Hnone. done.
      * destruct Hlast as (-> & Hf & Hp & Hs & Hh & Hpost & Hk').
        rewrite Hk in Hk'. injection Hk' as <- <-.
        by exists pre, f, post.
    + intros (pre & f & post & -> & Hf & Hp & Hs & Hh & Hpost).
      by eapply comprehension_last.
Qed.

Lemma remote_index_contract_witness :
  remote_index
    {[ "result"%string := Scalar (VStr "error");
       "message"%string := Scalar (VStr "invalid credentials") ]}
  = ApiError (Message (Scalar (VStr "invalid credentials")))
  ∧ ∃ idx,
      remote_index
        {[ "result"%string := Scalar (VStr "success");
           "files"%string :=
             Entries [file_entry "index.html" 1023 "c8aac06f";
                      directory_entry "images"] ]}
      = Index idx
      ∧ idx !! "index.html"%string = Some (VInt 1023, VStr "c8aac06f")
      ∧ idx !! "images"%string = None.
Proof.
  split.
  - refine (proj1 (remote_index_contract _) _). left. vm_compute. discriminate.
  - destruct (proj2 (remote_index_contract
                       {[ "result"%string := Scalar (VStr "success");
                          "files"%string :=
                            Entries [file_entry "index.html" 1023 "c8aac06f";
                                     directory_entry "images"] ]})
                    [file_entry "index.html" 1023 "c8aac06f";
                     directory_entry "images"])
      as (idx & Hidx & Hiff).
    + vm_compute. reflexivity.
    + vm_compute. reflexivity.
    + repeat constructor.
      * exists (VBool false). split; [vm_compute; reflexivity|]. intros _.
        repeat split; eexists; vm_compute; reflexivity.
      * exists (VBool true). split; [vm_compute; reflexivity|]. discriminate.
    + exists idx. split; [exact Hidx|]. split.
      * apply Hiff. exists [], (file_entry "index.html" 1023 "c8aac06f"),
          [directory_entry "images"].
        repeat split; try (vm_compute; reflexivity).
        -- exists (VBool false). split; vm_compute; reflexivity.
        -- repeat constructor. intros [(d & Hd & Ht) _].
           vm_compute in Hd. injection Hd as <-. discriminate Ht.
      * vm_compute in Hidx. injection Hidx as <-. vm_compute. reflexivity.
Defined.

End RemoteIndexFacts.

Module DiffFacts.
Import Py PyFacts Hasher HasherFacts Diff.

(** The example of the specification: [a.html] is on the remote with the
    same size and hash, [b.css] is new, [c.png] is only on the remote. *)
Example plan_of_spec_example :
  let a := list_byte_of_string "<html></html>" in
  let b := list_byte_of_string "body {}" in
  diff true
    {[ "/site/a.html"%string := a; "/site/b.css"%string := b ]}
    {[ "a.html"%string := (VInt 13, VStr (sha1_hex a));
       "c.png"%string := (VInt 7, VStr "41fe08fc0dd44e79f799d03ece903e62be25dc7d") ]}
    [ {| as_posix := "/site/a.html"; relative_posix := "a.html" |};
      {| as_posix := "/site/b.css"; relative_posix := "b.css" |} ]
  = Ok ([("/site/b.css", "b.css")], ["/site/a.html"])%string.
Proof. vm_compute. reflexivity. Qed.

(** The decision for one readable file, and whether the hasher ran. *)
Lemma changed_readable (has_file_digest : bool) (fs : gmap string (list byte))
    (p : local_path) (content : list byte) (r_size r_sha : value) :
  fs !! as_posix p = Some content →
  changed has_file_digest fs p (Z.of_nat (length content)) r_size r_sha
  = Ok (int_ne (Z.of_nat (length content)) r_size
        || str_ne (sha1_hex content) r_sha,
        if int_ne (Z.of_nat (length content)) r_size then []
        else [as_posix p]).
Proof.
  intros Hp. unfold changed.
  destruct (int_ne _ r_size); [done|].
  by rewrite (sha1_file_default _ fs _ content Hp).
Qed.

(** On readable files the loop goes through: it sends the outdated files
    and hashes the files whose size is the remote size, both in scan
    order. *)
Lemma diff_readable (has_file_digest : bool) (fs : gmap string (list byte))
    (remote_index : gmap string (value * value)) (local : list local_path) :
  readable fs local →
  diff has_file_digest fs remote_index local
  = Ok (pair_of <$> filter (λ p, outdatedb fs remote_index p = true) local,
        as_posix <$> filter (λ p, same_size fs remote_index p = true) local).
Proof.
  induction local as [|p local IH]; intros Hr; [done|].
  apply Forall_cons in Hr as [[content Hp] Hr].
  cbn [diff]. unfold st_size. rewrite Hp. cbn [mbind res_bind bind].
  rewrite !filter_cons.
  assert (outdatedb fs remote_index p
          = match remote_index !! relative_posix p with
            | Some (r_size, r_sha) =>
                int_ne (Z.of_nat (length content)) r_size
                || str_ne (sha1_hex content) r_sha
            | None => true
            end) as Ho.
  { unfold outdatedb. rewrite Hp.
    by destruct (remote_index !! relative_posix p) as [[??]|]. }
  assert (same_size fs remote_index p
          = match remote_index !! relative_posix p with
            | Some (r_size, _) =>
                negb (int_ne (Z.of_nat (length content)) r_size)
            | None => false
            end) as Hs.
  { unfold same_size. rewrite Hp.
    by destruct (remote_index !! relative_posix p) as [[??]|]. }
  destruct (remote_index !! relative_posix p) as [[r_size r_sha]|];
    cbn [default from_option id];
    rewrite (changed_readable _ _ _ content) by done;
    cbn [mbind res_bind bind int_ne]; rewrite (IH Hr);
    cbn [mbind res_bind bind].
  - destruct (int_ne _ r_size); cbn [orb negb] in Ho, Hs |- *.
    + rewrite decide_True by done. by rewrite decide_False by congruence.
    + rewrite (decide_True (P := same_size _ _ _ = true)) by done.
      destruct (str_ne _ r_sha).
      * by rewrite decide_True by done.
      * by rewrite decide_False by congruence.
  - cbn [orb]. rewrite decide_True by done.
    by rewrite decide_False by congruence.
Qed.

Lemma outdatedb_spec (fs : gmap string (list byte))
    (remote_index : gmap string (value * value)) (p : local_path) :
  is_Some (fs !! as_posix p) →
  outdatedb fs remote_index p = true ↔ outdated fs remote_index p.
Proof.
  intros [content Hp]. unfold outdatedb, outdated. rewrite Hp.
  destruct (remote_index !! relative_posix p) as [[r_size r_sha]|].
  - rewrite orb_true_iff. split.
    + intros H. right. by exists content, r_size, r_sha.
    + intros [|(c & rs & rh & Hc & Hr & H)]; [done|]. by simplify_eq.
  - split; [by left|done].
Qed.

Lemma pair_of_inj (p q : local_path) : pair_of p = pair_of q → p = q.
Proof. destruct p, q. unfold pair_of. cbn. by intros [= -> ->]. Qed.

(** C1.  On a scan of readable files the diff loop returns a plan, and a
    local file is in the plan if and only if the remote index has no entry
    under its relative path, or the size of the entry differs from the size
    of the file, or the hash of the entry differs from the SHA-1 of the
    file; the plan lists these files in scan order. *)
Theorem plan_iff_outdated (has_file_digest : bool)
    (fs : gmap string (list byte))
    (remote_index : gmap string (value * value)) (local : list local_path) :
  readable fs local →
  ∃ to_send hashed,
    diff has_file_digest fs remote_index local = Ok (to_send, hashed)
    ∧ to_send
      = pair_of <$> filter (λ p, outdatedb fs remote_index p = true) local
    ∧ ∀ p, p ∈ local →
        ((as_posix p, relative_posix p) ∈ to_send ↔ outdated fs remote_index p).
Proof.
  intros Hr. eexists _, _. split; [by apply diff_readable|].
  split; [done|]. intros p Hp.
  assert (is_Some (fs !! as_posix p)) as Hsome.
  { unfold readable in Hr. rewrite Forall_forall in Hr. by apply Hr. }
  rewrite <- (outdatedb_spec _ _ _ Hsome). change (as_posix p, _) with (pair_of p).
  rewrite list_elem_of_fmap. split.
  - intros (q & Hq & Hin). apply pair_of_inj in Hq as <-.
    by apply list_elem_of_filter in Hin as [? _].
  - intros Hout. exists p. split; [done|]. by apply list_elem_of_filter.
Qed.

Lemma plan_iff_outdated_witness :
  let a := list_byte_of_string "<html></html>" in
  let b := list_byte_of_string "body {}" in
  let fs : gmap string (list byte) :=
    {[ "/site/a.html"%string := a; "/site/b.css"%string := b ]} in
  let idx : gmap string (value * value) :=
    {[ "a.html"%string := (VInt 13, VStr (sha1_hex a)) ]} in
  let local :=
    [ {| as_posix := "/site/a.html"; relative_posix := "a.html" |};
      {| as_posix := "/site/b.css"; relative_posix := "b.css" |} ] in
  ∃ to_send hashed,
    diff true fs idx local = Ok (to_send, hashed)
    ∧ to_send = pair_of <$> filter (λ p, outdatedb fs idx p = true) local
    ∧ ∀ p, p ∈ local →
        ((as_posix p, relative_posix p) ∈ to_send ↔ outdated fs idx p).
Proof.
  intros a b fs idx local. apply (plan_iff_outdated true fs idx local).
  repeat constructor; eexists; vm_compute; reflexivity.
Defined.

(** A local file of three bytes whose remote entry says five bytes: the
    file is sent, and the hasher is not called on it. *)
Lemma hash_always_computed_counterexample :
  diff true
    {[ "/site/a.html"%string := list_byte_of_string "abc" ]}
    {[ "a.html"%string :=
         (VInt 5, VStr "a9993e364706816aba3e25717850c26c9cd0d89d") ]}
    [ {| as_posix := "/site/a.html"; relative_posix := "a.html" |} ]
  = Ok ([("/site/a.html", "a.html")], [])%string.
Proof. vm_compute. reflexivity. Qed.

(** C5, as the code has it.  On a scan of readable files the hasher is
    called exactly on the local files that have a remote entry of equal
    size, once each and in scan order: [or] does not evaluate the hash
    comparison when the sizes differ or when there is no remote entry. *)
Theorem hashed_iff_same_size (has_file_digest : bool)
    (fs : gmap string (list byte))
    (remote_index : gmap string (value * value)) (local : list local_path) :
  readable fs local →
  ∃ to_send hashed,
    diff has_file_digest fs remote_index local = Ok (to_send, hashed)
    ∧ hashed
      = as_posix <$> filter (λ p, same_size fs remote_index p = true) local.
Proof.
  intros Hr. eexists _, _. split; [by apply diff_readable|done].
Qed.

Lemma hashed_iff_same_size_witness :
  let fs : gmap string (list byte) :=
    {[ "/site/a.html"%string := list_byte_of_string "abc";
       "/site/b.css"%string := list_byte_of_string "body {}" ]} in
  let idx : gmap string (value * value) :=
    {[ "a.html"%string := (VInt 3, VStr "0000");
       "b.css"%string := (VInt 9, VStr "1111") ]} in
  let local :=
    [ {| as_posix := "/site/a.html"; relative_posix := "a.html" |};
      {| as_posix := "/site/b.css"; relative_posix := "b.css" |} ] in
  ∃ to_send hashed,
    diff false fs idx local = Ok (to_send, hashed)
    ∧ hashed = as_posix <$> filter (λ p, same_size fs idx p = true) local.
Proof.
  intros fs idx local. apply (hashed_iff_same_size false fs idx local).
  repeat constructor; eexists; vm_compute; reflexivity.
Defined.

End DiffFacts.

(* ===================================================================== *)
(** * Part 3: further properties of the code                              *)
(* ===================================================================== *)

Module BatcherMore.
Import Py Batcher BatcherFacts Main.

Lemma ceil_as_floor (L n : Z) : 0 < n → (L + n - 1) / n = (L - 1) / n + 1.
Proof.
  intros Hn. replace (L + n - 1) with (L - 1 + 1 * n) by lia.
  by rewrite Z.div_add by lia.
Qed.

(** X1.  The number of requests that the closing message of [main]
    computes, [(total - 1)//batch_sz + 1], is the number of batches that
    [chunked] yields, for every positive batch size and every plan, the
    empty plan included. *)
Theorem request_count_is_batch_count {A} (to_send : list A) (batch_sz : Z) :
  0 < batch_sz →
  ∃ batches,
    chunked to_send batch_sz = Ok batches
    ∧ request_count (Z.of_nat (length to_send)) batch_sz
      = Ok (Z.of_nat (length batches)).
Proof.
  intros Hn. eexists. split; [by apply chunked_take_drop|].
  unfold request_count, floordiv.
  destruct (Z.eqb_spec batch_sz 0) as [|_]; [lia|]. cbn [mbind res_bind bind].
  rewrite length_map, length_seq, ceil_as_floor by done.
  rewrite Z2Nat.id; [done|].
  assert (-1 ≤ (Z.of_nat (length to_send) - 1) / batch_sz); [|lia].
  apply Z.div_le_lower_bound; lia.
Qed.

Lemma request_count_is_batch_count_witness :
  ∃ batches,
    chunked ["a"; "b"; "c"; "d"; "e"]%string 2 = Ok batches
    ∧ request_count (Z.of_nat (length ["a"; "b"; "c"; "d"; "e"]%string)) 2
      = Ok (Z.of_nat (length batches)).
Proof.
  apply (request_count_is_batch_count ["a"; "b"; "c"; "d"; "e"]%string 2). lia.
Defined.

(** X2.  A plan that is not empty and has no more items than the batch
    size goes out as one batch, the plan itself. *)
Theorem chunked_single_batch {A} (seq0 : list A) (n : Z) :
  seq0 ≠ [] →
  Z.of_nat (length seq0) ≤ n →
  chunked seq0 n = Ok [seq0].
Proof.
  intros Hne Hle.
  assert (0 < Z.of_nat (length seq0)) by (destruct seq0; [done|cbn; lia]).
  rewrite chunked_take_drop by lia.
  replace ((Z.of_nat (length seq0) + n - 1) / n) with 1.
  - change (Z.to_nat 1) with 1%nat. cbn [seq map].
    rewrite Nat.mul_0_l, drop_0. by rewrite take_ge by lia.
  - symmetry. rewrite ceil_as_floor by lia.
    rewrite Z.div_small by lia. done.
Qed.

Lemma chunked_single_batch_witness :
  chunked ["a.html"; "b.css"; "c.js"]%string 100
  = Ok [["a.html"; "b.css"; "c.js"]%string].
Proof.
  apply (chunked_single_batch ["a.html"; "b.css"; "c.js"]%string 100).
  - discriminate.
  - cbn. lia.
Defined.

End BatcherMore.

Module InvokerMore.
Import Py Invoker InvokerFacts.

(** The shape of every run of the loop entered with [delay]: a streak of
    transient failures, then one last call unless the observation ended
    first. *)
Lemma attempts_shape {W V} (fn : op W V) (fuel : nat) :
  ∀ (delay : Z) (w : W),
    ∃ codes,
      (length codes ≤ fuel)%nat
      ∧ Forall (λ c, transient c = true) codes
      ∧ (attempts fuel fn delay w).2
        = streak_trace delay codes
          ++ match (attempts fuel fn delay w).1.1 with
             | Running _ => []
             | _ => [Call]
             end
      ∧ (∀ d, (attempts fuel fn delay w).1.1 = Running d →
              d = Nat.iter (length codes) next_delay delay
              ∧ length codes = fuel).
Proof.
  induction fuel as [|fuel IH]; intros delay w.
  - exists []. cbn. split; [lia|]. split; [done|]. split; [done|].
    intros d' [= <-]. done.
  - cbn [attempts]. destruct (fn w) as [[v|e] w1].
    { exists []. cbn. repeat split; try done; lia. }
    destruct e as [| | | | |[sc|]|];
      try (exists []; cbn; repeat split; try done; lia).
    destruct (transient sc) eqn:Hsc;
      [|exists []; cbn; repeat split; try done; lia].
    destruct (IH (next_delay delay) w1) as (codes & Hlen & Hall & Ht & Hrun).
    destruct (attempts fuel fn (next_delay delay) w1) as [[o w2] t].
    cbn [fst snd] in Ht, Hrun |- *.
    exists (sc :: codes). split; [cbn; lia|]. split; [by constructor|].
    split.
    + by rewrite streak_trace_cons, Ht.
    + intros d Hd. destruct (Hrun d Hd) as [-> <-].
      by rewrite <- Nat.iter_succ_r.
Qed.

Lemma spec_delay_bounds (k : nat) : 60 ≤ spec_delay k ≤ 600.
Proof.
  unfold spec_delay.
  assert (1 ≤ 2 ^ Z.of_nat k) by (apply Z.pow_le_mono_r with (b := 0); lia).
  lia.
Qed.

Lemma spec_delay_mono (j k : nat) : (j ≤ k)%nat → spec_delay j ≤ spec_delay k.
Proof.
  intros Hjk. unfold spec_delay.
  assert (2 ^ Z.of_nat j ≤ 2 ^ Z.of_nat k) by (apply Z.pow_le_mono_r; lia).
  lia.
Qed.

Lemma sleeps_app (t1 t2 : list event) :
  sleeps (t1 ++ t2) = sleeps t1 ++ sleeps t2.
Proof. unfold sleeps. apply omap_app. Qed.

Lemma calls_app (t1 t2 : list event) :
  calls (t1 ++ t2) = (calls t1 + calls t2)%nat.
Proof. unfold calls. by rewrite omap_app, length_app. Qed.


(** X4.  The invoker never sleeps less than 60 nor more than 600 at a
    time, and within one call no sleep is shorter than the one before. *)
Theorem retry_sleeps_bounded {W V} (fn : op W V) (fuel : nat) (w : W) :
  Forall (λ d, 60 ≤ d ≤ 600) (sleeps (retry_on_rate_limit fuel fn w).2)
  ∧ ∀ (i j : nat) (di dj : Z),
      (i ≤ j)%nat →
      sleeps (retry_on_rate_limit fuel fn w).2 !! i = Some di →
      sleeps (retry_on_rate_limit fuel fn w).2 !! j = Some dj →
      di ≤ dj.
Proof.
  unfold retry_on_rate_limit.
  destruct (attempts_shape fn fuel 60 w) as (codes & _ & _ & Ht & _).
  assert (sleeps (attempts fuel fn 60 w).2
          = map spec_delay (seq 0 (length codes))) as ->.
  { rewrite Ht, sleeps_app, sleeps_streak_trace.
    replace (sleeps _) with (@nil Z) by (by destruct (attempts _ _ _ _).1.1).
    rewrite app_nil_r. apply map_ext, iter_next_delay. }
  split.
  - apply Forall_forall. intros d Hd. apply list_elem_of_fmap in Hd as (k & -> & _).
    apply spec_delay_bounds.
  - intros i j di dj Hij Hi Hj.
    rewrite list_lookup_fmap in Hi, Hj.
    destruct (seq 0 (length codes) !! i) as [i'|] eqn:Hi'; [|done].
    destruct (seq 0 (length codes) !! j) as [j'|] eqn:Hj'; [|done].
    apply lookup_seq in Hi' as [-> _]. apply lookup_seq in Hj' as [-> _].
    cbn in Hi, Hj. injection Hi as <-. injection Hj as <-.
    apply spec_delay_mono. lia.
Qed.



End InvokerMore.

Module UploadFacts.
Import Py Batcher BatcherFacts BatcherMore Invoker InvokerFacts InvokerMore.
Import Scanner Main.

Example upload_five_by_two :
  upload_stage 3 true "" 2
    [("/s/a", "a"); ("/s/b", "b"); ("/s/c", "c"); ("/s/d", "d"); ("/s/e", "e")]%string
    recording []
  = (Finished 5 3,
     [[("/s/a", "a"); ("/s/b", "b")]; [("/s/c", "c"); ("/s/d", "d")];
      [("/s/e", "e")]]%string,
     [Call; Call; Call]).
Proof. reflexivity. Qed.

(** The batches of a positive batch size, concatenated, are the plan. *)
Lemma chunked_concat {A} (seq0 : list A) (n : Z) (batches : list (list A)) :
  0 < n → chunked seq0 n = Ok batches → concat batches = seq0.
Proof.
  intros Hn Hc. rewrite chunked_take_drop in Hc by done. injection Hc as <-.
  rewrite concat_batches. apply take_ge.
  pose proof (ceil_bounds (Z.of_nat (length seq0)) n ltac:(lia) Hn) as Hb.
  cbv zeta in Hb.
  assert (0 ≤ (Z.of_nat (length seq0) + n - 1) / n) by (apply Z.div_pos; lia).
  nia.
Qed.

(** A wrapped call that returned has called the operation. *)
Lemma retry_returned_calls {W V} (fn : op W V) (fuel : nat) (w : W) (v : V) :
  (retry_on_rate_limit fuel fn w).1.1 = Returned v →
  (1 ≤ calls (retry_on_rate_limit fuel fn w).2)%nat.
Proof.
  unfold retry_on_rate_limit. intros Hr.
  destruct (attempts_shape fn fuel 60 w) as (codes & _ & _ & Ht & _).
  rewrite Ht, Hr, calls_app. cbn. lia.
Qed.

(** The counter and the calls of a loop that went through. *)
Lemma upload_loop_returned {W V X} (fuel : nat) (upload : list X → op W V)
    (chunks : list (list X)) :
  ∀ (sent : Z) (w : W) (sent' : Z),
    (upload_loop fuel upload chunks sent w).1.1 = Returned sent' →
    sent' = sent + Z.of_nat (length (concat chunks))
    ∧ (length chunks ≤ calls (upload_loop fuel upload chunks sent w).2)%nat.
Proof.
  induction chunks as [|chunk rest IH]; intros sent w sent' Hr.
  - cbn in Hr |- *. injection Hr as <-. split; lia.
  - cbn [upload_loop] in Hr |- *.
    pose proof (retry_returned_calls (upload chunk) fuel w) as Hcalls.
    destruct (retry_on_rate_limit fuel (upload chunk) w) as [[o w1] t].
    destruct o as [v|e|d]; [|done|done].
    specialize (Hcalls v eq_refl). cbn [fst snd] in Hcalls.
    specialize (IH (sent + Z.of_nat (length chunk)) w1 sent').
    destruct (upload_loop fuel upload rest _ w1) as [[o' w2] t'].
    cbn [fst snd] in Hr, IH |- *. destruct (IH Hr) as [-> Hc].
    rewrite calls_app. cbn [concat length]. rewrite length_app. split; lia.
Qed.

(** X6.  The upload loop over [pre ++ post] is the loop over [pre]
    followed, when [pre] went through, by the loop over [post] from the
    counter and the world that [pre] left; when a batch of [pre] raises, or
    is still being retried, no batch of [post] is attempted. *)
Theorem upload_loop_app {W V X} (fuel : nat) (upload : list X → op W V)
    (pre post : list (list X)) (sent : Z) (w : W) :
  upload_loop fuel upload (pre ++ post) sent w
  = let '(o, w1, t1) := upload_loop fuel upload pre sent w in
    match o with
    | Returned sent1 =>
        let '(o2, w2, t2) := upload_loop fuel upload post sent1 w1 in
        (o2, w2, t1 ++ t2)
    | _ => (o, w1, t1)
    end.
Proof.
  revert sent w. induction pre as [|chunk pre IH]; intros sent w.
  - cbn. by destruct (upload_loop fuel upload post sent w) as [[o w2] t].
  - cbn [app upload_loop].
    destruct (retry_on_rate_limit fuel (upload chunk) w) as [[o w1] t].
    destruct o as [v|e|d]; [|done|done].
    rewrite IH.
    destruct (upload_loop fuel upload pre _ w1) as [[o1 w2] t1].
    destruct o1 as [s1|e|d]; [|done|done].
    destruct (upload_loop fuel upload post s1 w2) as [[o2 w3] t2].
    by rewrite app_assoc.
Qed.

(** X7.  With a positive batch size, a run that reaches its closing message
    reports as sent the number of files of the plan and as requests the
    number of batches, and the transport was called at least once per
    batch. *)
Theorem finished_run_reports_plan {W V} (fuel : nat) (skip_input : bool)
    (answer : string) (batch_sz : Z) (to_send : list (string * string))
    (upload : list (string * string) → op W V) (w w' : W)
    (sent requests : Z) (t : list event) :
  0 < batch_sz →
  upload_stage fuel skip_input answer batch_sz to_send upload w
  = (Finished sent requests, w', t) →
  sent = Z.of_nat (length to_send)
  ∧ ∃ batches,
      chunked to_send batch_sz = Ok batches
      ∧ requests = Z.of_nat (length batches)
      ∧ (length batches ≤ calls t)%nat.
Proof.
  intros Hn Hs. unfold upload_stage in Hs.
  destruct (stops _ _ _); [done|].
  destruct (chunked to_send batch_sz) as [batches|e] eqn:Hc; [|done].
  pose proof (upload_loop_returned fuel upload batches 0 w) as Hl.
  destruct (upload_loop fuel upload batches 0 w) as [[o w1] t1].
  destruct o as [s|e|d]; [|done|done].
  destruct (Hl s eq_refl) as [Hsent Hcalls]. cbn [fst snd] in Hcalls.
  rewrite (chunked_concat _ _ _ Hn Hc) in Hsent.
  unfold request_count, floordiv in Hs.
  destruct (Z.eqb_spec batch_sz 0) as [|_]; [lia|].
  cbn [mbind res_bind bind] in Hs. injection Hs as <- <- <- <-.
  split; [lia|]. exists batches. split; [done|]. split; [|done].
  rewrite chunked_take_drop in Hc by done. injection Hc as <-.
  rewrite length_map, length_seq, ceil_as_floor by done.
  rewrite Z2Nat.id; [done|].
  assert (-1 ≤ (Z.of_nat (length to_send) - 1) / batch_sz); [|lia].
  apply Z.div_le_lower_bound; lia.
Qed.

Lemma finished_run_reports_plan_witness :
  let to_send := [("/s/a", "a"); ("/s/b", "b"); ("/s/c", "c")]%string in
  Z.of_nat 3 = Z.of_nat (length to_send)
  ∧ ∃ batches,
      chunked to_send 2 = Ok batches
      ∧ 2 = Z.of_nat (length batches)
      ∧ (length batches ≤ calls [Call; Print 429 60; Sleep 60; Call; Call])%nat.
Proof.
  intros to_send.
  apply (finished_run_reports_plan (V := unit) 3 true "" 2 to_send
           scripted_upload [Raise (HTTPError (Some 429)); Ok (); Ok ()] []).
  - lia.
  - reflexivity.
Defined.

Lemma upload_loop_recording {X} (fuel : nat) (chunks : list (list X)) :
  ∀ (sent : Z) (w : list (list X)),
    upload_loop (S fuel) recording chunks sent w
    = (Returned (sent + Z.of_nat (length (concat chunks))), w ++ chunks,
       replicate (length chunks) Call).
Proof.
  induction chunks as [|chunk rest IH]; intros sent w.
  - cbn. by rewrite Z.add_0_r, app_nil_r.
  - cbn [upload_loop retry_on_rate_limit attempts recording].
    rewrite IH. cbn [concat length replicate app]. rewrite length_app.
    rewrite <- app_assoc. do 2 f_equal. f_equal. lia.
Qed.

(** The upload stage of a run without questions, on a transport that
    accepts every batch. *)
Lemma upload_stage_recording (fuel : nat) (answer : string) (batch_sz : Z)
    (to_send : list (string * string)) (w : list (list (string * string))) :
  0 < batch_sz →
  ∃ batches,
    upload_stage (S fuel) true answer batch_sz to_send recording w
    = (Finished (Z.of_nat (length to_send)) (Z.of_nat (length batches)),
       w ++ batches, replicate (length batches) Call)
    ∧ concat batches = to_send.
Proof.
  intros Hn.
  destruct (chunked to_send batch_sz) as [batches|e] eqn:Hc;
    [|by rewrite chunked_take_drop in Hc by done].
  pose proof (chunked_concat _ _ _ Hn Hc) as Hcat.
  exists batches. split; [|done].
  unfold upload_stage. cbn [stops negb andb]. rewrite Hc, upload_loop_recording.
  rewrite Hcat, Z.add_0_l.
  unfold request_count, floordiv.
  destruct (Z.eqb_spec batch_sz 0) as [|_]; [lia|].
  cbn [mbind res_bind bind].
  rewrite chunked_take_drop in Hc by done. injection Hc as Hb.
  assert (Z.of_nat (length batches)
          = (Z.of_nat (length to_send) - 1) / batch_sz + 1) as ->; [|done].
  rewrite <- Hb, length_map, length_seq, ceil_as_floor by done.
  rewrite Z2Nat.id; [done|].
  assert (-1 ≤ (Z.of_nat (length to_send) - 1) / batch_sz); [|lia].
  apply Z.div_le_lower_bound; lia.
Qed.

(** X8.  When every upload succeeds at once, a run with a positive batch
    size hands every file of the plan to the transport exactly once and in
    plan order: the batches received, concatenated, are the plan; there is
    one call per batch and no sleep. *)
Theorem every_file_uploaded_once (fuel : nat) (answer : string)
    (batch_sz : Z) (to_send : list (string * string)) :
  0 < batch_sz →
  ∃ batches,
    upload_stage (S fuel) true answer batch_sz to_send recording []
    = (Finished (Z.of_nat (length to_send)) (Z.of_nat (length batches)),
       batches, replicate (length batches) Call)
    ∧ concat batches = to_send.
Proof. apply upload_stage_recording. Qed.

Lemma every_file_uploaded_once_witness :
  ∃ batches,
    upload_stage 1 true "" 2 [("/s/a", "a"); ("/s/b", "b"); ("/s/c", "c")]%string
      recording []
    = (Finished (Z.of_nat 3) (Z.of_nat (length batches)), batches,
       replicate (length batches) Call)
    ∧ concat batches = [("/s/a", "a"); ("/s/b", "b"); ("/s/c", "c")]%string.
Proof.
  apply (every_file_uploaded_once 0 "" 2
           [("/s/a", "a"); ("/s/b", "b"); ("/s/c", "c")]%string).
  lia.
Defined.

(** X9.  With a batch size that is not positive, a run that gets to the
    upload stage calls the transport for no file, whatever the plan: with
    zero it ends in the [ValueError] of [range], the empty plan included;
    with a negative size it ends in the closing message, which reports no
    file sent. *)
Theorem nonpositive_batch_size_sends_nothing {W V} (fuel : nat)
    (skip_input : bool) (answer : string) (batch_sz : Z)
    (to_send : list (string * string))
    (upload : list (string * string) → op W V) (w : W) :
  batch_sz ≤ 0 →
  stops skip_input (Z.of_nat (length to_send)) answer = false →
  upload_stage fuel skip_input answer batch_sz to_send upload w
  = (if decide (batch_sz = 0)
     then Crashed (ValueError "range() arg 3 must not be zero")
     else Finished 0 ((Z.of_nat (length to_send) - 1) / batch_sz + 1),
     w, []).
Proof.
  intros Hn Hs. unfold upload_stage. rewrite Hs.
  destruct (decide (batch_sz = 0)) as [->|Hne]; [done|].
  rewrite chunked_negative by lia. cbn [upload_loop].
  unfold request_count, floordiv.
  destruct (Z.eqb_spec batch_sz 0) as [|_]; [done|]. done.
Qed.

Lemma nonpositive_batch_size_sends_nothing_witness :
  upload_stage 5 true "" (-2) [("/s/a", "a"); ("/s/b", "b"); ("/s/c", "c")]%string
    (recording (X := string * string)) []
  = (Finished 0 0, [], [])
  ∧ upload_stage 5 true "" 0 [] (recording (X := string * string)) []
    = (Crashed (ValueError "range() arg 3 must not be zero"), [], []).
Proof.
  split.
  - apply (nonpositive_batch_size_sends_nothing 5 true "" (-2)
             [("/s/a", "a"); ("/s/b", "b"); ("/s/c", "c")]%string recording []);
      [lia | reflexivity].
  - apply (nonpositive_batch_size_sends_nothing 5 true "" 0 [] recording []);
      [lia | reflexivity].
Defined.

Lemma lower_is_y (answer : string) :
  lower_string answer = "y"%string
  ↔ answer = "y"%string ∨ answer = "Y"%string.
Proof.
  split.
  - destruct answer as [|c [|c' rest]]; [done| |done].
    cbn. intros [= Hc]. revert Hc.
    destruct c as [[] [] [] [] [] [] [] []]; vm_compute; intros H;
      try discriminate H; auto.
  - by intros [->| ->].
Qed.

(** X10.  Without [skip_input], files are uploaded only when the plan is
    not empty and the operator answers [y] or [Y] to the question: otherwise
    the run ends without a call to the transport, and in these two cases it
    does go on to the upload loop. *)
Theorem uploads_need_consent {W V} (fuel : nat) (answer : string)
    (batch_sz : Z) (to_send : list (string * string))
    (upload : list (string * string) → op W V) (w : W) :
  (to_send = [] ∨ (answer ≠ "y"%string ∧ answer ≠ "Y"%string) →
   upload_stage fuel false answer batch_sz to_send upload w = (Declined, w, []))
  ∧ (to_send ≠ [] → answer = "y"%string ∨ answer = "Y"%string →
     (upload_stage fuel false answer batch_sz to_send upload w).1.1 ≠ Declined).
Proof.
  split.
  - intros H. unfold upload_stage, stops. cbn [negb andb].
    destruct H as [->|[Hy HY]]; [done|].
    destruct (String.eqb _ "y") eqn:He.
    + apply String.eqb_eq, lower_is_y in He as [?|?]; done.
    + by rewrite orb_true_r.
  - intros Hne Hans. unfold upload_stage, stops. cbn [negb andb].
    apply lower_is_y, String.eqb_eq in Hans. rewrite Hans.
    destruct to_send as [|x l]; [done|]. cbn [orb negb length].
    replace (Z.of_nat (S (length l)) =? 0) with false
      by (symmetry; apply Z.eqb_neq; lia).
    cbn [orb].
    destruct (chunked (x :: l) batch_sz) as [chunks|e]; [|done].
    destruct (upload_loop fuel upload chunks 0 w) as [[o w1] t].
    destruct o as [s|e|d]; cbn; try done.
    by destruct (request_count _ _).
Qed.

Lemma uploads_need_consent_witness :
  upload_stage 3 false "n" 2 [("/s/a", "a")]%string
    (recording (X := string * string)) []
  = (Declined, [], [])
  ∧ (upload_stage 3 false "Y" 2 [("/s/a", "a")]%string
       (recording (X := string * string)) []).1.1 ≠ Declined.
Proof.
  split.
  - apply (uploads_need_consent 3 "n" 2 [("/s/a", "a")]%string recording []).
    right. split; discriminate.
  - apply (uploads_need_consent 3 "Y" 2 [("/s/a", "a")]%string recording []).
    + discriminate.
    + by right.
Defined.

End UploadFacts.

Module ScannerFacts.
Import Py Diff Scanner.

Example parse_template_exts :
  parse_exts "html,css,js,png,jpg,jpeg,gif,webp,json"
  = ["html"; "css"; "js"; "png"; "jpg"; "jpeg"; "gif"; "webp"; "json"]%string.
Proof. reflexivity. Qed.

Example parse_untidy_exts :
  parse_exts " .HTML , Css,,.js " = ["html"; "css"; ""; "js"]%string.
Proof. reflexivity. Qed.

Example extension_keys :
  map extension_key
    ["/site/index.HTML"; "/site/a.b/readme"; "/site/.htaccess";
     "/site/archive.tar.gz"; "/site/odd."]%string
  = ["html"; ""; ""; "gz"; ""]%string.
Proof. reflexivity. Qed.

Lemma chars_app (a b : string) : chars (a ++ b) = chars a ++ chars b.
Proof.
  unfold chars. induction a as [|c a IH]; [done|].
  change (String c a +:+ b) with (String c (a +:+ b)).
  cbn [list_ascii_of_string app]. by rewrite IH.
Qed.

Lemma split_length (sep : ascii) (s : list ascii) :
  length (split sep s)
  = S (length (filter (λ c, Ascii.eqb c sep = true) s)).
Proof.
  induction s as [|c s IH]; [done|]. cbn [split]. rewrite filter_cons.
  destruct (Ascii.eqb c sep) eqn:Hc.
  - rewrite decide_True by done. cbn. by rewrite IH.
  - rewrite decide_False by done.
    destruct (split sep s) as [|piece pieces]; [done|]. by rewrite <- IH.
Qed.

Lemma split_no_sep (sep : ascii) (s : list ascii) :
  sep ∉ s → split sep s = [s].
Proof.
  induction s as [|c s IH]; intros Hs; [done|]. cbn [split].
  apply not_elem_of_cons in Hs as [Hc Hs].
  destruct (Ascii.eqb_spec c sep) as [->|_]; [done|]. by rewrite IH.
Qed.

Lemma last_split_app (sep : ascii) (a b d : list ascii) :
  List.last (split sep (a ++ sep :: b)) d = List.last (split sep b) d.
Proof.
  induction a as [|c a IH]; cbn [app split].
  - rewrite Ascii.eqb_refl.
    pose proof (split_length sep b) as Hl.
    by destruct (split sep b).
  - pose proof (split_length sep (a ++ sep :: b)) as Hl.
    rewrite filter_app, filter_cons, decide_True, length_app in Hl
      by apply Ascii.eqb_refl.
    cbn [length] in Hl.
    destruct (Ascii.eqb c sep).
    + rewrite <- IH. by destruct (split sep (a ++ sep :: b)).
    + rewrite <- IH.
      destruct (split sep (a ++ sep :: b)) as [|piece [|piece' pieces]];
        [done|cbn in Hl; lia|done].
Qed.

(** The name of [dir/name] is [name]. *)
Lemma name_of_join (dir name : list ascii) :
  "/"%char ∉ name → name_of (dir ++ "/"%char :: name) = name.
Proof.
  intros Hn. unfold name_of. by rewrite last_split_app, split_no_sep.
Qed.

Lemma rfind_absent (c : ascii) (s : list ascii) : c ∉ s → rfind c s = None.
Proof.
  induction s as [|x s IH]; intros Hs; [done|].
  apply not_elem_of_cons in Hs as [Hc Hs]. cbn. rewrite IH by done.
  destruct (Ascii.eqb_spec x c) as [->|_]; done.
Qed.

Lemma rfind_last (c : ascii) (a b : list ascii) :
  c ∉ b → rfind c (a ++ c :: b) = Some (length a).
Proof.
  intros Hb. induction a as [|x a IH]; cbn.
  - by rewrite rfind_absent, Ascii.eqb_refl.
  - by rewrite IH.
Qed.

Lemma lstrip_dots_no_dot (s : list ascii) :
  "."%char ∉ s → lstrip_dots s = s.
Proof.
  destruct s as [|c s]; [done|]. intros Hs.
  apply not_elem_of_cons in Hs as [Hc _]. cbn.
  destruct (Ascii.eqb_spec c ".") as [->|_]; done.
Qed.

(** The suffix of [dir/stem.ext] is [.ext]. *)
Lemma suffix_of_join (dir stem ext : list ascii) :
  stem ≠ [] → ext ≠ [] →
  "/"%char ∉ stem → "/"%char ∉ ext → "."%char ∉ ext →
  suffix (dir ++ "/"%char :: stem ++ "."%char :: ext) = "."%char :: ext.
Proof.
  intros Hstem Hext Hs1 Hs2 Hdot. unfold suffix.
  rewrite name_of_join.
  2:{ rewrite not_elem_of_app, not_elem_of_cons. done. }
  rewrite rfind_last by done.
  assert ((0 <? length stem)%nat = true) as ->.
  { apply Nat.ltb_lt. destruct stem; [done|cbn; lia]. }
  assert ((length stem <? length (stem ++ "."%char :: ext) - 1)%nat = true) as ->.
  { apply Nat.ltb_lt. rewrite length_app. destruct ext; [done|cbn; lia]. }
  cbn [andb]. by rewrite drop_app_length.
Qed.

(** X11.  A regular file named [stem.ext], where [ext] is the part after
    the last dot of the name, is made of ASCII characters, and neither part
    is empty, is selected exactly when [ext] with its letters A-Z in lower
    case is one of the extensions: the case of an ASCII extension does not
    matter. *)
Theorem selected_by_extension (exts : list string) (dir stem ext : string) :
  stem ≠ ""%string → ext ≠ ""%string →
  ascii_only ext →
  "/"%char ∉ chars stem → "/"%char ∉ chars ext → "."%char ∉ chars ext →
  selected exts (file_at dir (stem ++ "." ++ ext))
  = bool_decide (lower_string ext ∈ exts).
Proof.
  intros Hstem Hext _ Hs1 Hs2 Hdot.
  unfold selected, file_at, extension_key. cbn [cand_path is_file as_posix andb].
  do 2 f_equal. unfold lower_string. do 2 f_equal.
  change (list_ascii_of_string ?x) with (chars x).
  rewrite !chars_app. change (chars "/") with ["/"%char].
  change (chars ".") with ["."%char]. cbn [app].
  rewrite suffix_of_join; try done.
  - cbn. by rewrite lstrip_dots_no_dot.
  - by destruct stem.
  - by destruct ext.
Qed.

Lemma selected_by_extension_witness :
  selected ["html"; "css"]%string (file_at "/site" ("index.old" ++ "." ++ "HTML"))
  = bool_decide (lower_string "HTML" ∈ ["html"; "css"]%string).
Proof.
  apply (selected_by_extension ["html"; "css"]%string "/site" "index.old" "HTML");
    try discriminate;
    apply (bool_decide_unpack _); vm_compute; exact I.
Defined.

(** X12.  A regular file whose name has no dot, or whose only dot is its
    first character, has no extension for the scanner: it is selected
    exactly when the empty string is one of the extensions. *)
Theorem selected_without_extension (exts : list string) (dir name : string) :
  "/"%char ∉ chars name →
  "."%char ∉ chars name ∨ (∃ rest, name = String "." rest ∧ "."%char ∉ chars rest) →
  selected exts (file_at dir name) = bool_decide (""%string ∈ exts).
Proof.
  intros Hs Hdot.
  unfold selected, file_at, extension_key. cbn [cand_path is_file as_posix andb].
  do 2 f_equal.
  change (list_ascii_of_string ?x) with (chars x).
  rewrite !chars_app. change (chars "/") with ["/"%char]. cbn [app].
  unfold suffix. rewrite name_of_join by done.
  destruct Hdot as [Hdot|(rest & -> & Hdot)].
  - by rewrite rfind_absent.
  - change (chars (String "." rest)) with ([] ++ "."%char :: chars rest).
    by rewrite rfind_last.
Qed.

Lemma selected_without_extension_witness :
  selected ["html"; ""]%string (file_at "/site" ".htaccess")
  = bool_decide (""%string ∈ ["html"; ""]%string).
Proof.
  apply (selected_without_extension ["html"; ""]%string "/site" ".htaccess").
  - apply (bool_decide_unpack _). vm_compute. exact I.
  - right. exists "htaccess"%string. split; [reflexivity|].
    apply (bool_decide_unpack _). vm_compute. exact I.
Defined.

Lemma lower_char_not_upper (c : ascii) : is_upper (lower_char c) = false.
Proof. by destruct c as [[] [] [] [] [] [] [] []]. Qed.

Lemma lstrip_dots_Forall (P : ascii → Prop) (s : list ascii) :
  Forall P s → Forall P (lstrip_dots s).
Proof.
  induction 1 as [|c s Hc Hs IH]; [done|]. cbn.
  destruct (Ascii.eqb c "."); [done|]. by constructor.
Qed.

Lemma lstrip_dots_head (s : list ascii) :
  head (lstrip_dots s) ≠ Some "."%char.
Proof.
  induction s as [|c s IH]; [done|]. cbn.
  destruct (Ascii.eqb_spec c ".") as [->|Hc]; [done|]. cbn. congruence.
Qed.

Lemma last_elem_of {A} (l : list A) (d : A) : l ≠ [] → List.last l d ∈ l.
Proof.
  induction l as [|x [|y l] IH]; intros Hne; [done|cbn; set_solver|].
  change (List.last (x :: y :: l) d) with (List.last (y :: l) d).
  apply elem_of_cons. right. by apply IH.
Qed.

Lemma split_snoc (sep : ascii) (s : list ascii) :
  [] ∈ split sep (s ++ [sep]).
Proof.
  pose proof (last_split_app sep s [] []) as Hlast. cbn [split] in Hlast.
  change (List.last [[]] []) with (@nil ascii) in Hlast.
  assert (List.last (split sep (s ++ [sep])) [] ∈ split sep (s ++ [sep])) as H.
  { apply last_elem_of. pose proof (split_length sep (s ++ [sep])) as Hl.
    by destruct (split sep (s ++ [sep])). }
  by rewrite Hlast in H.
Qed.

(** X13.  The extensions read from [include_files] are one per
    comma-separated item, so there is always at least one; each is in lower
    case and does not begin with a dot; and an item left empty, as after a
    trailing comma, gives the empty extension. *)
Theorem parse_exts_normal (include_files : string) :
  length (parse_exts include_files)
  = S (length (filter (λ c, Ascii.eqb c "," = true) (chars include_files)))
  ∧ (∀ e, e ∈ parse_exts include_files →
       Forall (λ c, is_upper c = false) (chars e)
       ∧ head (chars e) ≠ Some "."%char)
  ∧ ""%string ∈ parse_exts (include_files ++ ",").
Proof.
  unfold parse_exts. split; [|split].
  - by rewrite length_map, split_length.
  - intros e He. apply list_elem_of_fmap in He as (raw & -> & _).
    unfold chars. rewrite list_ascii_of_string_of_list_ascii. split.
    + apply lstrip_dots_Forall, Forall_forall. intros c Hc.
      apply list_elem_of_fmap in Hc as (c' & -> & _).
      apply lower_char_not_upper.
    + apply lstrip_dots_head.
  - apply list_elem_of_fmap. exists []. split; [done|].
    change (list_ascii_of_string ?x) with (chars x). rewrite chars_app.
    apply split_snoc.
Qed.

End ScannerFacts.

Module DiffMore.
Import Py PyFacts Hasher HasherFacts Diff DiffFacts Main.

Lemma int_ne_same (z : Z) : int_ne z (VInt z) = false.
Proof. unfold int_ne. by rewrite Z.eqb_refl. Qed.

Lemma in_sync_flags (fs : gmap string (list byte))
    (idx : gmap string (value * value)) (p : local_path) :
  in_sync fs idx p →
  is_Some (fs !! as_posix p)
  ∧ outdatedb fs idx p = false ∧ same_size fs idx p = true.
Proof.
  intros (content & Hc & Hi). unfold outdatedb, same_size. rewrite Hc, Hi.
  rewrite int_ne_same. split; [by eexists|]. split; [|done].
  cbn [orb]. by apply str_ne_false.
Qed.

Lemma filter_none {A} (P : A → Prop) `{∀ x, Decision (P x)} (l : list A) :
  Forall (λ x, ¬ P x) l → filter P l = [].
Proof.
  induction 1 as [|x l Hx Hl IH]; [done|].
  by rewrite filter_cons, decide_False.
Qed.

Lemma filter_all {A} (P : A → Prop) `{∀ x, Decision (P x)} (l : list A) :
  Forall P l → filter P l = l.
Proof.
  induction 1 as [|x l Hx Hl IH]; [done|].
  by rewrite filter_cons, decide_True, IH.
Qed.

(** The plan and the hashed paths of a tree that the remote holds as it
    is. *)
Lemma diff_in_sync (has_file_digest : bool) (fs : gmap string (list byte))
    (idx : gmap string (value * value)) (local : list local_path) :
  Forall (in_sync fs idx) local →
  diff has_file_digest fs idx local = Ok ([], as_posix <$> local).
Proof.
  intros Hall. rewrite diff_readable.
  - rewrite filter_none, filter_all; [done| |].
    + eapply Forall_impl; [exact Hall|]. intros p Hp.
      by destruct (in_sync_flags _ _ _ Hp) as (_ & _ & ->).
    + eapply Forall_impl; [exact Hall|]. intros p Hp.
      destruct (in_sync_flags _ _ _ Hp) as (_ & -> & _). done.
  - eapply Forall_impl; [exact Hall|]. intros p Hp.
    by destruct (in_sync_flags _ _ _ Hp).
Qed.

(** X14.  When the remote index holds every scanned file with the size
    and the SHA-1 of its local content, the plan is empty: nothing is sent
    again.  Every file is hashed once to find this out. *)
Theorem in_sync_tree_has_empty_plan (has_file_digest : bool)
    (fs : gmap string (list byte)) (idx : gmap string (value * value))
    (local : list local_path) :
  Forall (in_sync fs idx) local →
  diff has_file_digest fs idx local = Ok ([], as_posix <$> local).
Proof. apply diff_in_sync. Qed.

Lemma in_sync_tree_has_empty_plan_witness :
  let a := list_byte_of_string "<html></html>" in
  let fs : gmap string (list byte) := {[ "/site/a.html"%string := a ]} in
  let idx : gmap string (value * value) :=
    {[ "a.html"%string := (VInt 13, VStr (sha1_hex a));
       "old.png"%string := (VInt 7, VStr "41fe08fc") ]} in
  diff true fs idx [ {| as_posix := "/site/a.html"; relative_posix := "a.html" |} ]
  = Ok ([], ["/site/a.html"%string]).
Proof.
  intros a fs idx.
  apply (in_sync_tree_has_empty_plan true fs idx
           [ {| as_posix := "/site/a.html"; relative_posix := "a.html" |} ]).
  repeat constructor. exists a. split; vm_compute; reflexivity.
Defined.

(** X15.  The diff reads the remote index only under the relative paths
    of the scanned files: two indexes that agree there give the same plan,
    the same hashed paths and the same failure, so that what the remote
    holds beside the local tree changes nothing. *)
Theorem remote_only_entries_irrelevant (has_file_digest : bool)
    (fs : gmap string (list byte)) (idx1 idx2 : gmap string (value * value))
    (local : list local_path) :
  (∀ p, p ∈ local → idx1 !! relative_posix p = idx2 !! relative_posix p) →
  diff has_file_digest fs idx1 local = diff has_file_digest fs idx2 local.
Proof.
  induction local as [|p local IH]; intros Hagree; [done|].
  cbn [diff]. rewrite (Hagree p) by set_solver.
  rewrite IH; [done|]. intros q Hq. apply Hagree. set_solver.
Qed.

Lemma remote_only_entries_irrelevant_witness :
  let fs : gmap string (list byte) :=
    {[ "/site/a.html"%string := list_byte_of_string "abc" ]} in
  let local := [ {| as_posix := "/site/a.html"; relative_posix := "a.html" |} ] in
  diff false fs {[ "c.png"%string := (VInt 7, VStr "41fe08fc") ]} local
  = diff false fs ∅ local.
Proof.
  intros fs local.
  apply (remote_only_entries_irrelevant false fs
           {[ "c.png"%string := (VInt 7, VStr "41fe08fc") ]} ∅ local).
  intros p Hp. apply list_elem_of_singleton in Hp as ->.
  vm_compute. reflexivity.
Defined.

(** X16.  A scanned path that is no longer in the file system when the
    loop reaches it, so that [p.stat()] fails, makes the whole diff fail
    with the [OSError] of that path, whatever the files before it needed
    and whatever comes after it: no plan is returned. *)
Theorem missing_path_aborts_diff (has_file_digest : bool)
    (fs : gmap string (list byte)) (idx : gmap string (value * value))
    (pre post : list local_path) (p : local_path) :
  readable fs pre →
  fs !! as_posix p = None →
  diff has_file_digest fs idx (pre ++ p :: post) = Raise (OSError (as_posix p)).
Proof.
  intros Hpre Hp. induction pre as [|q pre IH].
  - cbn [app diff]. unfold st_size. by rewrite Hp.
  - apply Forall_cons in Hpre as [[content Hq] Hpre].
    cbn [app diff]. unfold st_size. rewrite Hq. cbn [mbind res_bind bind].
    destruct (default (VNone, VNone) (idx !! relative_posix q)) as [r_size r_sha].
    rewrite (changed_readable _ _ _ content) by done.
    cbn [mbind res_bind bind]. by rewrite (IH Hpre).
Qed.

Lemma missing_path_aborts_diff_witness :
  diff true {[ "/site/a.html"%string := list_byte_of_string "abc" ]} ∅
    ([ {| as_posix := "/site/a.html"; relative_posix := "a.html" |} ]
     ++ {| as_posix := "/site/gone.css"; relative_posix := "gone.css" |}
     :: [ {| as_posix := "/site/a.html"; relative_posix := "a.html" |} ])
  = Raise (OSError "/site/gone.css").
Proof.
  apply (missing_path_aborts_diff true
           {[ "/site/a.html"%string := list_byte_of_string "abc" ]} ∅).
  - repeat constructor. eexists. vm_compute. reflexivity.
  - vm_compute. reflexivity.
Defined.

End DiffMore.

Module RemoteIndexMore.
Import Py PyFacts RemoteIndex RemoteIndexFacts.

(** A listing that passes the test of line 103. *)
Lemma remote_index_success (raw : gmap string field)
    (files : list (gmap string value)) :
  raw !! "result"%string = Some (Scalar (VStr "success")) →
  raw !! "files"%string = Some (Entries files) →
  remote_index raw
  = match comprehension files ∅ with
    | Ok idx => Index idx
    | Raise e => Failed e
    end.
Proof.
  intros Hres Hfiles. unfold remote_index, files_not_in.
  apply result_is_success in Hres as ->. by rewrite Hfiles.
Qed.

Lemma comprehension_directories (files : list (gmap string value)) :
  ∀ acc,
    Forall (λ f, ∃ d, f !! "is_directory"%string = Some d ∧ truthy d = true)
           files →
    comprehension files acc = Ok acc.
Proof.
  induction files as [|f files IH]; intros acc Hall; [done|].
  apply Forall_cons in Hall as [(d & Hd & Ht) Hall].
  cbn [comprehension]. unfold getitem. rewrite Hd. cbn. rewrite Ht.
  by apply IH.
Qed.

(** X17.  An entry marked as a directory is passed over before any other
    of its keys is read: a successful listing that holds only directories,
    with or without a path, a size or a hash, gives the empty index and no
    error. *)
Theorem directories_give_empty_index (raw : gmap string field)
    (files : list (gmap string value)) :
  raw !! "result"%string = Some (Scalar (VStr "success")) →
  raw !! "files"%string = Some (Entries files) →
  Forall (λ f, ∃ d, f !! "is_directory"%string = Some d ∧ truthy d = true)
         files →
  remote_index raw = Index ∅.
Proof.
  intros Hres Hfiles Hall.
  by rewrite (remote_index_success raw files), comprehension_directories.
Qed.

Lemma directories_give_empty_index_witness :
  remote_index
    {[ "result"%string := Scalar (VStr "success");
       "files"%string :=
         Entries [directory_entry "images";
                  {[ "is_directory"%string := VInt 1 ]}] ]}
  = Index ∅.
Proof.
  apply (directories_give_empty_index _
           [directory_entry "images"; {[ "is_directory"%string := VInt 1 ]}]).
  - vm_compute. reflexivity.
  - vm_compute. reflexivity.
  - repeat constructor.
    + exists (VBool true). split; vm_compute; reflexivity.
    + exists (VInt 1). split; vm_compute; reflexivity.
Defined.

(** X18.  The first entry of a successful listing that lacks a key the
    comprehension reads (["is_directory"], or for an entry that is not a
    directory ["path"], ["size"] or ["sha1_hash"]) makes the stage fail
    with the [KeyError] of a key that entry lacks; no index is built,
    whatever the entries after it. *)
Theorem malformed_entry_raises_key_error (raw : gmap string field)
    (pre post : list (gmap string value)) (f : gmap string value) :
  raw !! "result"%string = Some (Scalar (VStr "success")) →
  raw !! "files"%string = Some (Entries (pre ++ f :: post)) →
  Forall well_formed pre →
  ¬ well_formed f →
  ∃ key,
    remote_index raw = Failed (KeyError key)
    ∧ f !! key = None
    ∧ key ∈ ["is_directory"; "path"; "size"; "sha1_hash"]%string.
Proof.
  intros Hres Hfiles Hpre Hf.
  rewrite (remote_index_success raw _ Hres Hfiles), comprehension_app.
  destruct (comprehension_total pre ∅ Hpre) as [idx ->].
  cbn [mbind res_bind bind comprehension]. unfold getitem.
  destruct (f !! "is_directory"%string) as [d|] eqn:Hd;
    [|exists "is_directory"%string; cbn; split; [done|]; split; [done|set_solver]].
  cbn [mbind res_bind bind].
  destruct (truthy d) eqn:Ht;
    [destruct Hf; exists d; split; [done|]; intros ?; congruence|].
  destruct (f !! "path"%string) as [path|] eqn:Hp;
    [|exists "path"%string; cbn; split; [done|]; split; [done|set_solver]].
  cbn [mbind res_bind bind].
  destruct (f !! "size"%string) as [size|] eqn:Hs;
    [|exists "size"%string; cbn; split; [done|]; split; [done|set_solver]].
  cbn [mbind res_bind bind].
  destruct (f !! "sha1_hash"%string) as [sha|] eqn:Hh;
    [|exists "sha1_hash"%string; cbn; split; [done|]; split; [done|set_solver]].
  destruct Hf. exists d. split; [done|]. intros _.
  rewrite Hp, Hs, Hh. by repeat split.
Qed.

Lemma malformed_entry_raises_key_error_witness :
  ∃ key,
    remote_index
      {[ "result"%string := Scalar (VStr "success");
         "files"%string :=
           Entries ([directory_entry "images"]
                    ++ {[ "path"%string := VStr "a.html";
                          "is_directory"%string := VBool false;
                          "size"%string := VInt 3 ]}
                    :: [file_entry "b.css" 7 "41fe08fc"]) ]}
    = Failed (KeyError key)
    ∧ ({[ "path"%string := VStr "a.html";
          "is_directory"%string := VBool false;
          "size"%string := VInt 3 ]} : gmap string value) !! key = None
    ∧ key ∈ ["is_directory"; "path"; "size"; "sha1_hash"]%string.
Proof.
  apply (malformed_entry_raises_key_error _ [directory_entry "images"]
           [file_entry "b.css" 7 "41fe08fc"]).
  - vm_compute. reflexivity.
  - vm_compute. reflexivity.
  - repeat constructor. exists (VBool true).
    split; [vm_compute; reflexivity|discriminate].
  - intros (d & Hd & Hwf). vm_compute in Hd. injection Hd as <-.
    destruct (Hwf eq_refl) as (_ & _ & [sha Hsha]). vm_compute in Hsha.
    discriminate Hsha.
Defined.

End RemoteIndexMore.

Module HasherMore.
Import Py Sha1 Hasher HasherFacts.

(** X19.  With [buf = 0] the manual loop stops at its first read, which
    returns no byte: for every readable file it returns the SHA-1 of the
    empty string, whatever the file holds. *)
Theorem manual_loop_buf_zero (fs : gmap string (list byte)) (p : string)
    (content : list byte) :
  fs !! p = Some content →
  sha1_file false fs p 0 = Ok (sha1_hex []).
Proof.
  intros Hp. unfold sha1_file, open. rewrite Hp. cbn [mbind res_bind bind].
  rewrite manual_loop_eq. unfold read.
  cbn [Z.ltb Z.compare Z.to_nat Z.opp]. rewrite take_0.
  by rewrite decide_True by done.
Qed.

Lemma manual_loop_buf_zero_witness :
  sha1_file false
    {[ "/site/a.html"%string := list_byte_of_string "<html></html>" ]}
    "/site/a.html" 0
  = Ok (sha1_hex []).
Proof.
  apply (manual_loop_buf_zero _ _ (list_byte_of_string "<html></html>")).
  vm_compute. reflexivity.
Defined.

End HasherMore.

Module SyncFacts.
Import Py PyFacts Batcher BatcherFacts Invoker InvokerFacts.
Import RemoteIndex RemoteIndexFacts Hasher Diff DiffFacts DiffMore.
Import Scanner Main UploadFacts.

(** A whole run on the example of the specification: the listing is
    refused once, then [b.css] alone is uploaded. *)
Example sync_spec_example :
  let a := list_byte_of_string "<html></html>" in
  let b := list_byte_of_string "body {}" in
  let raw : gmap string field :=
    {[ "result"%string := Scalar (VStr "success");
       "files"%string :=
         Entries [file_entry "a.html" 13 (sha1_hex a);
                  file_entry "c.png" 7 "41fe08fc0dd44e79f799d03ece903e62be25dc7d"] ]} in
  sync 3 true true "" 100 (parse_exts "html,css")
    (λ w, match w with
          | [] => (Raise (HTTPError (Some 429)), [[]])
          | _ => (Ok raw, [])
          end)
    recording
    {[ "/site/a.html"%string := a; "/site/b.css"%string := b;
       "/site/notes.txt"%string := b ]}
    [file_at "/site" "a.html"; file_at "/site" "b.css";
     file_at "/site" "notes.txt"]
    []
  = (Finished 1 1, [[("/site/b.css", "b.css")]]%string,
     [Call; Print 429 60; Sleep 60; Call], [Call]).
Proof. vm_compute. reflexivity. Qed.

Lemma remote_index_api_error (raw : gmap string field) :
  raw !! "result"%string ≠ Some (Scalar (VStr "success"))
  ∨ raw !! "files"%string = None →
  remote_index raw
  = ApiError (match raw !! "message"%string with
              | Some m => Message m
              | None => Whole raw
              end).
Proof.
  intros H. unfold remote_index.
  replace (result_ne_success raw || files_not_in raw) with true; [done|].
  symmetry. apply orb_true_iff. destruct H as [H|H].
  - left. apply not_false_iff_true. by rewrite result_is_success.
  - right. unfold files_not_in. by rewrite H.
Qed.

Lemma chunked_nil {A} (n : Z) : 0 < n → chunked (@nil A) n = Ok [].
Proof.
  intros Hn. destruct n as [|n|n]; [lia|reflexivity|lia].
Qed.

(** X20.  When the listing comes back without ["result"] being
    ["success"], or without ["files"], the run ends in the API error exit
    right after the listing call: no file is read and the transport is not
    called for any upload. *)
Theorem api_error_ends_run {W V} (fuel : nat) (skip_input has_file_digest : bool)
    (answer : string) (batch_sz : Z) (exts : list string)
    (listitems : op W (gmap string field))
    (upload : list (string * string) → op W V)
    (fs : gmap string (list byte)) (candidates : list candidate)
    (w w1 : W) (raw : gmap string field) (t1 : list event) :
  retry_on_rate_limit fuel listitems w = (Returned raw, w1, t1) →
  raw !! "result"%string ≠ Some (Scalar (VStr "success"))
  ∨ raw !! "files"%string = None →
  sync fuel skip_input has_file_digest answer batch_sz exts listitems upload
    fs candidates w
  = (ApiExit (match raw !! "message"%string with
              | Some m => Message m
              | None => Whole raw
              end), w1, t1, []).
Proof.
  intros Hl Hraw. unfold sync. rewrite Hl.
  by rewrite remote_index_api_error.
Qed.

Lemma api_error_ends_run_witness :
  let raw : gmap string field :=
    {[ "result"%string := Scalar (VStr "error");
       "message"%string := Scalar (VStr "invalid auth") ]} in
  sync 2 true true "" 100 ["html"%string] (λ w, (Ok raw, w))
    (recording (X := string * string)) ∅ [file_at "/site" "a.html"] []
  = (ApiExit (Message (Scalar (VStr "invalid auth"))), [], [Call], []).
Proof.
  intros raw.
  apply (api_error_ends_run 2 true true "" 100 ["html"%string]
           (λ w, (Ok raw, w)) recording ∅ [file_at "/site" "a.html"] [] [] raw).
  - reflexivity.
  - left. vm_compute. discriminate.
Defined.

(** X21.  A run on a tree that the remote already holds as it is (every
    scanned file listed with the size and SHA-1 of its content) uploads
    nothing: the transport is not called after the listing.  Without
    questions and with a positive batch size the run reports 0 files in 0
    requests; with questions it ends before the upload stage. *)
Theorem in_sync_run_uploads_nothing {W V} (fuel : nat)
    (skip_input has_file_digest : bool) (answer : string) (batch_sz : Z)
    (exts : list string) (listitems : op W (gmap string field))
    (upload : list (string * string) → op W V)
    (fs : gmap string (list byte)) (candidates : list candidate)
    (w w1 : W) (raw : gmap string field) (t1 : list event)
    (idx : gmap string (value * value)) :
  0 < batch_sz →
  retry_on_rate_limit fuel listitems w = (Returned raw, w1, t1) →
  remote_index raw = Index idx →
  Forall (in_sync fs idx) (scan exts candidates) →
  sync fuel skip_input has_file_digest answer batch_sz exts listitems upload
    fs candidates w
  = (if skip_input then Finished 0 0 else Declined, w1, t1, []).
Proof.
  intros Hn Hl Hidx Hsync. unfold sync. rewrite Hl, Hidx.
  rewrite (diff_in_sync _ _ _ _ Hsync). unfold upload_stage.
  destruct skip_input; [|done]. cbn [stops negb andb].
  rewrite (chunked_nil batch_sz Hn). cbn [upload_loop length Z.of_nat].
  unfold request_count, floordiv.
  destruct (Z.eqb_spec batch_sz 0) as [|_]; [lia|].
  cbn [mbind res_bind bind].
  change (Z.of_nat 0 - 1) with (-1).
  replace (-1 / batch_sz) with (-1); [done|].
  apply Z.div_unique with (r := batch_sz - 1); lia.
Qed.

Lemma in_sync_run_uploads_nothing_witness :
  let a := list_byte_of_string "<html></html>" in
  let raw : gmap string field :=
    {[ "result"%string := Scalar (VStr "success");
       "files"%string := Entries [file_entry "a.html" 13 (sha1_hex a)] ]} in
  sync 2 true false "" 100 ["html"%string] (λ w, (Ok raw, w))
    (recording (X := string * string)) {[ "/site/a.html"%string := a ]}
    [file_at "/site" "a.html"] []
  = (Finished 0 0, [], [Call], []).
Proof.
  intros a raw.
  apply (in_sync_run_uploads_nothing 2 true false "" 100 ["html"%string]
           (λ w, (Ok raw, w)) recording {[ "/site/a.html"%string := a ]}
           [file_at "/site" "a.html"] [] [] raw [Call]
           {[ "a.html"%string := (VInt 13, VStr (sha1_hex a)) ]}).
  - lia.
  - reflexivity.
  - vm_compute. reflexivity.
  - repeat constructor. exists a. split; vm_compute; reflexivity.
Defined.

(** X22.  A run without questions, with a positive batch size, on
    readable files and a transport that accepts every batch: the files
    handed to the transport, batch after batch, are exactly the scanned
    files that are outdated, each once and in scan order, and the closing
    message reports their number and the number of batches. *)
Theorem run_uploads_outdated_files (fuel : nat) (has_file_digest : bool)
    (answer : string) (batch_sz : Z) (exts : list string)
    (listitems : op (list (list (string * string))) (gmap string field))
    (fs : gmap string (list byte)) (candidates : list candidate)
    (w w1 : list (list (string * string))) (raw : gmap string field)
    (t1 : list event) (idx : gmap string (value * value)) :
  0 < batch_sz →
  retry_on_rate_limit (S fuel) listitems w = (Returned raw, w1, t1) →
  remote_index raw = Index idx →
  readable fs (scan exts candidates) →
  ∃ batches,
    sync (S fuel) true has_file_digest answer batch_sz exts listitems
      recording fs candidates w
    = (Finished (Z.of_nat (length (concat batches)))
                (Z.of_nat (length batches)),
       w1 ++ batches, t1, replicate (length batches) Call)
    ∧ concat batches
      = pair_of <$> filter (λ p, outdatedb fs idx p = true) (scan exts candidates).
Proof.
  intros Hn Hl Hidx Hr. unfold sync. rewrite Hl, Hidx.
  rewrite (diff_readable _ _ _ _ Hr).
  destruct (upload_stage_recording fuel answer batch_sz
              (pair_of <$> filter (λ p, outdatedb fs idx p = true)
                                  (scan exts candidates)) w1 Hn)
    as (batches & Hup & Hcat).
  exists batches. rewrite Hup, Hcat. done.
Qed.

Lemma run_uploads_outdated_files_witness :
  let a := list_byte_of_string "<html></html>" in
  let b := list_byte_of_string "body {}" in
  let raw : gmap string field :=
    {[ "result"%string := Scalar (VStr "success");
       "files"%string := Entries [file_entry "a.html" 13 (sha1_hex a)] ]} in
  let fs : gmap string (list byte) :=
    {[ "/site/a.html"%string := a; "/site/b.css"%string := b ]} in
  let idx : gmap string (value * value) :=
    {[ "a.html"%string := (VInt 13, VStr (sha1_hex a)) ]} in
  let candidates := [file_at "/site" "a.html"; file_at "/site" "b.css"] in
  ∃ batches,
    sync 1 true true "" 100 ["html"; "css"]%string (λ w, (Ok raw, w))
      recording fs candidates []
    = (Finished (Z.of_nat (length (concat batches)))
                (Z.of_nat (length batches)),
       [] ++ batches, [Call], replicate (length batches) Call)
    ∧ concat batches
      = pair_of <$> filter (λ p, outdatedb fs idx p = true)
                           (scan ["html"; "css"]%string candidates).
Proof.
  intros a b raw fs idx candidates.
  apply (run_uploads_outdated_files 0 true "" 100 ["html"; "css"]%string
           (λ w, (Ok raw, w)) fs candidates [] [] raw [Call] idx).
  - lia.
  - reflexivity.
  - vm_compute. reflexivity.
  - repeat constructor; eexists; vm_compute; reflexivity.
Defined.

End SyncFacts.
